(** * next-yate-compat: the Engine / Message facade of [src/index.js]

    A shallow embedding of the pure and state-passing parts of
    [getEngine]: template substitution ([Engine.replaceParams]), the
    debug/alarm state with its accessors, the [Message] constructor with
    its [enqueue]/[dispatch] closures, and the base64 helpers. *)

From Stdlib Require Import QArith Qcanon Ascii String.
From stdpp Require Import gmap list strings.

Local Open Scope N_scope.

(** ** JavaScript strings

    A JavaScript string is a sequence of UTF-16 code units; a code unit is
    modelled as an [N].  [js] turns a literal of the development into such
    a sequence, one code unit per character. *)

Abbreviation jsstring := (list N).

Fixpoint js (s : string) : jsstring :=
  match s with
  | EmptyString => []
  | String a s' => N_of_ascii a :: js s'
  end.

(** ** Regular expressions

    The two regular expression literals of [replaceParams] use literal
    characters, one-character classes ([.] and [[^...]]), the greedy [+]
    applied to a class, concatenation and one capturing group.  The
    abstract syntax has no alternation and no optional part, so the group
    of a pattern takes part in every successful match. *)

Module Regex.

Inductive regex : Type :=
  | Chr (c : N)
  | Cls (p : N → bool)
  | Plus (p : N → bool)
  | Seq (r1 r2 : regex)
  | Grp (r : regex).

Section Matcher.
Context {R : Type}.

(** Greedy repetition of a class: consume as long as possible, and give
    characters back one at a time while the continuation fails. *)
Fixpoint star (p : N → bool) (s : jsstring) (k : jsstring → option R)
    : option R :=
  match s with
  | c :: s' =>
      if p c then
        match star p s' k with
        | Some r => Some r
        | None => k s
        end
      else k s
  | [] => k []
  end.

(** Backtracking matcher in continuation-passing style.  [cap] is the
    text captured by the group so far, the continuation receives the
    rest of the input and the capture. *)
Fixpoint run (r : regex) (s : jsstring) (cap : jsstring)
    (k : jsstring → jsstring → option R) : option R :=
  match r with
  | Chr c =>
      match s with
      | d :: s' => if N.eqb c d then k s' cap else None
      | [] => None
      end
  | Cls p =>
      match s with
      | d :: s' => if p d then k s' cap else None
      | [] => None
      end
  | Plus p =>
      match s with
      | d :: s' => if p d then star p s' (λ t, k t cap) else None
      | [] => None
      end
  | Seq r1 r2 => run r1 s cap (λ t cap', run r2 t cap' k)
  | Grp r' =>
      run r' s cap (λ t _, k t (take (length s - length t) s))
  end.
End Matcher.

(** One match attempt anchored at the head of [s] (the sticky match of
    [split], one step of the search of [match]): the text matched, the
    capture and the rest of the input, for the first way to match in
    backtracking order. *)
Definition exec (r : regex) (s : jsstring)
    : option (jsstring * jsstring * jsstring) :=
  run r s []
    (λ t cap, Some (take (length s - length t) s, cap, t)).

(** [String.prototype.match] with a pattern without the [g] flag: the
    leftmost start position at which the pattern matches; [None] stands
    for [null], otherwise the pair is [(key[0], key[1])]. *)
Fixpoint search (r : regex) (s : jsstring) : option (jsstring * jsstring) :=
  match exec r s with
  | Some (m, cap, _) => Some (m, cap)
  | None =>
      match s with
      | [] => None
      | _ :: s' => search r s'
      end
  end.

(** [String.prototype.split] with a pattern that has one capturing group.
    [lit] is the text between the end [p] of the previous match and the
    current position [q]; [rest] is the input from [q] on.  A match is
    used unless it is empty and sits at [p]; the capture is spliced into
    the result after the literal.  [fuel] bounds the turns of the loop;
    a turn that finds no match or a match that is not empty moves [q]
    forward. *)
Fixpoint split_loop (r : regex) (fuel : nat) (lit rest : jsstring)
    : list jsstring :=
  match rest with
  | [] => [lit]
  | c :: rest' =>
      match fuel with
      | O => [lit ++ rest]
      | S fuel' =>
          match exec r rest with
          | Some (m, cap, after) =>
              if decide (m = [] ∧ lit = [])
              then split_loop r fuel' (lit ++ [c]) rest'
              else lit :: cap :: split_loop r fuel' [] after
          | None => split_loop r fuel' (lit ++ [c]) rest'
          end
      end
  end.

Definition split (r : regex) (s : jsstring) : list jsstring :=
  match s with
  | [] => if exec r [] is Some _ then [] else [[]]
  | _ => split_loop r (length s) [] s
  end.

End Regex.

(** ** Template substitution: [Engine.replaceParams] *)

Module Template.
Import Regex.

Definition dollar : N := 36.
Definition lbrace : N := 123.
Definition rbrace : N := 125.

(** [[^\$\{\}]] *)
Definition not_special (c : N) : bool :=
  negb (N.eqb c dollar || N.eqb c lbrace || N.eqb c rbrace).

(** [.] without the [s] flag: any code unit but the line terminators
    LF, CR, U+2028 and U+2029. *)
Definition line_terminator (c : N) : bool :=
  N.eqb c 10 || N.eqb c 13 || N.eqb c 8232 || N.eqb c 8233.
Definition dot (c : N) : bool := negb (line_terminator c).

(** [/(\$\{[^\$\{\}]+\})/] *)
Definition split_re : regex :=
  Grp (Seq (Chr dollar) (Seq (Chr lbrace) (Seq (Plus not_special) (Chr rbrace)))).

(** [/\$\{(.+)\}/] *)
Definition key_re : regex :=
  Seq (Chr dollar) (Seq (Chr lbrace) (Seq (Grp (Plus dot)) (Chr rbrace))).

(** The parameter mapping: the properties [params] holds itself, with
    strings as values.  ([key in params] also sees what an object
    inherits from its prototype; the mapping is taken without one.) *)
Abbreviation params := (gmap jsstring jsstring).

(** The body of the [for] loop: [res] after the segment [seg]. *)
Definition push_segment (ps : params) (res : list jsstring) (seg : jsstring)
    : list jsstring :=
  match search key_re seg with
  | Some (_, key) =>
      match ps !! key with
      | Some v => res ++ [v]
      | None => res
      end
  | None => res ++ [seg]
  end.

Definition replaceParams (buf : jsstring) (ps : params) : jsstring :=
  let str := split split_re buf in
  let res := foldl (push_segment ps) [] str in
  concat res.

(** *** Templates, to state what [replaceParams] computes

    A template is a literal followed by placeholders, each with the
    literal after it. *)

(** The placeholder [${id}]. *)
Definition ph (id : jsstring) : jsstring := dollar :: lbrace :: id ++ [rbrace].

Record template : Type := mkTemplate {
  first : jsstring;
  others : list (jsstring * jsstring)
}.

Definition render_others (tl : list (jsstring * jsstring)) : jsstring :=
  flat_map (λ p, ph (fst p) ++ snd p) tl.

Definition render (t : template) : jsstring :=
  first t ++ render_others (others t).

(** The value a placeholder stands for: that of its key, nothing when
    the key is absent. *)
Definition lookup_or_drop (ps : params) (id : jsstring) : jsstring :=
  default [] (ps !! id).

Definition expand (ps : params) (t : template) : jsstring :=
  first t ++ flat_map (λ p, lookup_or_drop ps (fst p) ++ snd p) (others t).

(** An identifier: not empty, without [$], [{], [}]. *)
Definition identifier (id : jsstring) : bool :=
  (if id is [] then false else true) && forallb not_special id.

(** A literal in which no [$] is followed by [{]. *)
Fixpoint no_open (s : jsstring) : bool :=
  match s with
  | c :: s' =>
      match s' with
      | d :: _ => negb (N.eqb c dollar && N.eqb d lbrace) && no_open s'
      | [] => true
      end
  | [] => true
  end.

(** A text in which a placeholder with an identifier occurs. *)
Definition has_placeholder (l : jsstring) : Prop :=
  ∃ pre id post, identifier id = true ∧ l = pre ++ ph id ++ post.

(** The literals [split] leaves between the placeholders it finds: at
    no position of a literal does the pattern match. *)
Definition unmatched_here (l : jsstring) (tl : list (jsstring * jsstring))
    : Prop :=
  ∀ pre suf, l = pre ++ suf → suf ≠ [] →
    exec split_re (suf ++ render_others tl) = None.

Fixpoint unmatched_others (tl : list (jsstring * jsstring)) : Prop :=
  match tl with
  | [] => True
  | p :: tl' => unmatched_here (snd p) tl' ∧ unmatched_others tl'
  end.

Definition unmatched (l : jsstring) (tl : list (jsstring * jsstring)) : Prop :=
  unmatched_here l tl ∧ unmatched_others tl.

(** The templates on which the two patterns of [replaceParams] agree:
    no [${] in a literal, no line terminator in an identifier. *)
Definition regular (t : template) : bool :=
  no_open (first t)
  && forallb (λ p, identifier (fst p) && forallb dot (fst p) && no_open (snd p))
       (others t).

End Template.

(** ** JavaScript values

    The arguments of the facade are dynamically typed.  A number is an
    IEEE double; only comparisons are made on levels, so the finite ones
    are taken as rationals (every double is one, and the comparisons of
    doubles are those of their values), next to NaN and the infinities. *)

Module JS.

Inductive number : Type :=
  | NaN
  | PosInf
  | NegInf
  | Fin (q : Q).

Definition int (z : Z) : number := Fin (inject_Z z).

(** [a < b] and [a <= b] on numbers; [a > b] is [b < a] and [a >= b] is
    [b <= a].  Every comparison with NaN is false. *)
Definition num_lt (a b : number) : bool :=
  match a, b with
  | Fin x, Fin y => if (x ?= y)%Q is Lt then true else false
  | NegInf, Fin _ | NegInf, PosInf | Fin _, PosInf => true
  | _, _ => false
  end.

Definition num_le (a b : number) : bool :=
  match a, b with
  | Fin x, Fin y => if (x ?= y)%Q is Gt then false else true
  | NegInf, Fin _ | NegInf, PosInf | Fin _, PosInf => true
  | NegInf, NegInf | PosInf, PosInf => true
  | _, _ => false
  end.

Definition num_gt (a b : number) : bool := num_lt b a.
Definition num_ge (a b : number) : bool := num_le b a.

(** The same orders as relations, to state properties with. *)
Inductive le_number : number → number → Prop :=
  | le_fin x y : (x <= y)%Q → le_number (Fin x) (Fin y)
  | le_from_neg_inf b : b ≠ NaN → le_number NegInf b
  | le_to_pos_inf a : a ≠ NaN → le_number a PosInf.

Inductive lt_number : number → number → Prop :=
  | lt_fin x y : (x < y)%Q → lt_number (Fin x) (Fin y)
  | lt_neg_fin y : lt_number NegInf (Fin y)
  | lt_neg_pos : lt_number NegInf PosInf
  | lt_fin_pos x : lt_number (Fin x) PosInf.

(** The integer a number is, if it is one. *)
Definition to_int (n : number) : option Z :=
  match n with
  | Fin q => let r := Qred q in
             if Pos.eqb (Qden r) 1 then Some (Qnum r) else None
  | _ => None
  end.

Inductive jsval : Type :=
  | VUndefined
  | VNull
  | VBool (b : bool)
  | VNum (n : number)
  | VStr (s : jsstring)
  | VObj (r : nat).

Inductive jstype : Type :=
  | TUndefined | TObject | TBoolean | TNumber | TString.

Definition typeof (v : jsval) : jstype :=
  match v with
  | VUndefined => TUndefined
  | VNull => TObject
  | VBool _ => TBoolean
  | VNum _ => TNumber
  | VStr _ => TString
  | VObj _ => TObject
  end.

Definition jstype_eqb (a b : jstype) : bool :=
  match a, b with
  | TUndefined, TUndefined | TObject, TObject | TBoolean, TBoolean
  | TNumber, TNumber | TString, TString => true
  | _, _ => false
  end.

(** ToBoolean, the truth value an operand of [&&] or [if] counts as. *)
Definition truthy (v : jsval) : bool :=
  match v with
  | VUndefined | VNull => false
  | VBool b => b
  | VNum (Fin q) => negb (Qeq_bool q 0)
  | VNum NaN => false
  | VNum _ => true
  | VStr s => if s is [] then false else true
  | VObj _ => true
  end.

End JS.

(** ** The Engine namespace: severities and the debug / alarm state *)

Module Eng.
Import JS.

(** The severity constants [Engine.DebugFail], ..., [Engine.DebugAll]. *)
Definition DebugFail : Z := 0.
Definition DebugTest : Z := 1.
Definition DebugCrit : Z := 2.
Definition DebugGoOn : Z := 2.
Definition DebugConf : Z := 3.
Definition DebugStub : Z := 4.
Definition DebugWarn : Z := 5.
Definition DebugMild : Z := 6.
Definition DebugNote : Z := 7.
Definition DebugCall : Z := 8.
Definition DebugInfo : Z := 9.
Definition DebugAll : Z := 10.

(** The numeric keys [0: "FAIL"], ..., [10: "ALL"] of the object. *)
Definition severity (k : Z) : option string :=
  match k with
  | 0%Z => Some "FAIL"%string
  | 1%Z => Some "TEST"%string
  | 2%Z => Some "CRIT"%string
  | 3%Z => Some "CONF"%string
  | 4%Z => Some "STUB"%string
  | 5%Z => Some "WARN"%string
  | 6%Z => Some "MILD"%string
  | 7%Z => Some "NOTE"%string
  | 8%Z => Some "CALL"%string
  | 9%Z => Some "INFO"%string
  | 10%Z => Some "ALL"%string
  | _ => None
  end.

(** [Engine[level]] for a number [level]: the property whose key is the
    decimal text of [level]; [None] is [undefined].  No other property of
    the object has a numeric text as its key. *)
Definition Engine_at (level : number) : option string :=
  match to_int level with
  | Some k => severity k
  | None => None
  end.

(** The state the facade keeps on the [Engine] object.  [_debugName] is
    initialised from the client's [_trackname] and written only with
    strings, [_debugLevel] is written only with numbers; [_debug] is
    written with the raw argument of [debugEnabled]. *)
Record Engine : Type := mkEngine {
  _debugName : jsstring;
  _debugLevel : number;
  _debug : jsval
}.

(** The facade's state together with what it has handed to the client's
    [output], oldest call first; a call is its argument list. *)
Record world : Type := mkWorld {
  engine : Engine;
  out : list (list jsval)
}.

Definition init (trackname : jsstring) : world :=
  mkWorld (mkEngine trackname (int 8) (VBool true)) [].

(** [Engine.output(...args)] *)
Definition output (w : world) (args : list jsval) : world :=
  mkWorld (engine w) (out w ++ [args]).

(** The template literal [<${Engine._debugName}:${Engine[level]}>]. *)
Definition tag (e : Engine) (level : number) : jsstring :=
  js "<" ++ _debugName e ++ js ":"
    ++ js (default "undefined"%string (Engine_at level)) ++ js ">".

(** The line both [debug] and [alarm] hand to [output]; [now] is the text
    of [new Date().toISOString()] at the call. *)
Definition line (e : Engine) (now : jsstring) (level : number)
    (args : list jsval) : list jsval :=
  VStr now :: VStr (tag e level) :: args.

(** [Engine.debug(level, ...args)] *)
Definition debug (w : world) (now : jsstring) (level : jsval)
    (args : list jsval) : world :=
  match level with
  | VNum n =>
      if num_gt n (int (-1)) && truthy (_debug (engine w))
         && num_ge (_debugLevel (engine w)) n
      then output w (line (engine w) now n args)
      else w
  | _ => w
  end.

(** The first statement of [alarm]: a string followed by a number is
    dropped in favour of the number. *)
Definition alarm_shift (level : jsval) (args : list jsval)
    : jsval * list jsval :=
  match level, args with
  | VStr _, VNum n :: args' => (VNum n, args')
  | _, _ => (level, args)
  end.

(** [Engine.alarm(level, ...args)] *)
Definition alarm (w : world) (now : jsstring) (level : jsval)
    (args : list jsval) : world :=
  let '(level, args) := alarm_shift level args in
  match level with
  | VNum n =>
      if num_gt n (int (-1)) && num_lt n (int 11)
      then output w (line (engine w) now n args)
      else w
  | _ => w
  end.

(** [Engine.debugName(name)] *)
Definition debugName (e : Engine) (name : jsval) : Engine * jsval :=
  match name with
  | VStr s => (mkEngine s (_debugLevel e) (_debug e), VUndefined)
  | _ => (e, VStr (_debugName e))
  end.

(** [Engine.debugLevel(level)] *)
Definition debugLevel (e : Engine) (level : jsval) : Engine * jsval :=
  match level with
  | VNum n => (mkEngine (_debugName e) n (_debug e), VUndefined)
  | _ => (e, VNum (_debugLevel e))
  end.

(** The identifier [level] in the body of [debugEnabled]: the parameter
    is called [value], and no enclosing scope of the arrow function binds
    [level], so [typeof level] is taken on an unresolvable reference. *)
Definition typeof_unresolvable : jstype := TUndefined.

(** [Engine.debugEnabled(value)] *)
Definition debugEnabled (e : Engine) (value : jsval) : Engine * jsval :=
  if jstype_eqb typeof_unresolvable TBoolean
  then (mkEngine (_debugName e) (_debugLevel e) value, VUndefined)
  else (e, _debug e).

(** [Engine.debugAt(level)] at a number. *)
Definition debugAt (e : Engine) (level : number) : bool :=
  num_le level (_debugLevel e).

(** [Engine.setDebug(command)] *)
Definition setDebug (e : Engine) (command : jsval) : Engine :=
  match command with
  | VBool b => mkEngine (_debugName e) (_debugLevel e) (VBool b)
  | _ => e
  end.

(** A call on the facade and its effect on the state and the output. *)
Inductive call : Type :=
  | Output (args : list jsval)
  | Debug (now : jsstring) (level : jsval) (args : list jsval)
  | Alarm (now : jsstring) (level : jsval) (args : list jsval)
  | DebugAt (level : number)
  | DebugName (name : jsval)
  | DebugLevel (level : jsval)
  | DebugEnabled (value : jsval)
  | SetDebug (command : jsval)
  | ReplaceParams (buf : jsstring) (ps : Template.params).

Definition with_engine (w : world) (r : Engine * jsval) : world * jsval :=
  (mkWorld (fst r) (out w), snd r).

Definition step (w : world) (c : call) : world * jsval :=
  match c with
  | Output args => (output w args, VUndefined)
  | Debug now level args => (debug w now level args, VUndefined)
  | Alarm now level args => (alarm w now level args, VUndefined)
  | DebugAt level => (w, VBool (debugAt (engine w) level))
  | DebugName name => with_engine w (debugName (engine w) name)
  | DebugLevel level => with_engine w (debugLevel (engine w) level)
  | DebugEnabled value => with_engine w (debugEnabled (engine w) value)
  | SetDebug command =>
      (mkWorld (setDebug (engine w) command) (out w), VUndefined)
  | ReplaceParams buf ps => (w, VStr (Template.replaceParams buf ps))
  end.

Definition run (w : world) (cs : list call) : world :=
  foldl (λ w c, fst (step w c)) w cs.

(** The accessors that write the state. *)
Definition is_accessor (c : call) : bool :=
  match c with
  | DebugName _ | DebugLevel _ | DebugEnabled _ | SetDebug _ => true
  | _ => false
  end.

(** A level that is one of the eleven severities. *)
Definition is_severity (n : number) : bool :=
  if Engine_at n is Some _ then true else false.

(** A call that does not store a level outside the severities. *)
Definition keeps_level (c : call) : Prop :=
  ∀ n, c = DebugLevel (VNum n) → is_severity n = true.

(** Kinds of calls, to speak of the calls of a sequence. *)
Definition is_debug (c : call) : bool :=
  if c is Debug _ _ _ then true else false.

Definition is_debugEnabled (c : call) : bool :=
  if c is DebugEnabled _ then true else false.

Definition sets_name (c : call) : bool :=
  if c is DebugName (VStr _) then true else false.

Definition sets_level (c : call) : bool :=
  if c is DebugLevel (VNum _) then true else false.

Definition sets_flag (c : call) : bool :=
  if c is SetDebug (VBool _) then true else false.

Definition enables (c : call) : bool :=
  if c is SetDebug (VBool true) then true else false.

End Eng.

(** ** The Message constructor

    [Message] builds a [YateMessage] and attaches two closures to it.
    What a closure hands to the client depends on how it binds [this], so
    objects have an identity: a reference into a heap. *)

Module Msg.
Import JS.

(** The value of [this] in a function body. *)
Inductive this_binding : Type :=
  | ThisUndefined
  | ThisObject (r : nat).

(** The two function values the constructor creates.
    [() => _yate.enqueue(this)] is an arrow function: its [this] is the
    [this] of the call of [Message] it was created in.
    [async function() { return _yate.dispatch(this); }] is an ordinary
    function: its [this] is the receiver of each call. *)
Inductive closure : Type :=
  | ArrowEnqueue (this : this_binding)
  | FunDispatch.

Inductive object : Type :=
  | Fresh
    (** the object [new] creates for a call of [Message]: it has the
        prototype of [Message] and no property of its own *)
  | YateMessage (name broadcast params : jsval)
      (enqueue dispatch : option closure).

(** What the underlying client is asked to do, with the argument. *)
Inductive request : Type :=
  | Enqueue (arg : this_binding)
  | Dispatch (arg : this_binding).

Record state : Type := mkState {
  heap : list object;
  client : list request
}.

Definition alloc (o : object) (st : state) : nat * state :=
  (length (heap st), mkState (heap st ++ [o]) (client st)).

(** The body of [Message] under a given [this]: the reference it returns
    and the state after it. *)
Definition Message (this : this_binding) (name broadcast params : jsval)
    (st : state) : nat * state :=
  alloc (YateMessage name broadcast params
           (Some (ArrowEnqueue this)) (Some FunDispatch)) st.

(** [new Message(name, broadcast, params)]: [this] is a fresh object; the
    body returns an object, which is the result of the expression. *)
Definition new_Message (name broadcast params : jsval) (st : state)
    : nat * state :=
  let '(this, st1) := alloc Fresh st in
  Message (ThisObject this) name broadcast params st1.

(** [Message(name, broadcast, params)] without [new], in strict mode. *)
Definition call_Message (name broadcast params : jsval) (st : state)
    : nat * state :=
  Message ThisUndefined name broadcast params st.

(** A call of a closure with receiver [m]. *)
Definition invoke (f : closure) (m : nat) (st : state) : state :=
  match f with
  | ArrowEnqueue this => mkState (heap st) (client st ++ [Enqueue this])
  | FunDispatch => mkState (heap st) (client st ++ [Dispatch (ThisObject m)])
  end.

(** [m.enqueue()] and [m.dispatch()]; [None] when [m] has no such
    method. *)
Definition enqueue (m : nat) (st : state) : option state :=
  match heap st !! m with
  | Some (YateMessage _ _ _ (Some f) _) => Some (invoke f m st)
  | _ => None
  end.

Definition dispatch (m : nat) (st : state) : option state :=
  match heap st !! m with
  | Some (YateMessage _ _ _ _ (Some f)) => Some (invoke f m st)
  | _ => None
  end.

(** The object a request hands over is the message [m]. *)
Definition hands_over (q : request) (m : nat) : Prop :=
  match q with
  | Enqueue (ThisObject r) | Dispatch (ThisObject r) => r = m
  | _ => False
  end.

(** What a script does with the constructor and its messages; a method
    call on something that has no such method throws and leaves the
    state as it is. *)
Inductive action : Type :=
  | New (name broadcast params : jsval)
  | Call (name broadcast params : jsval)
  | DoEnqueue (m : nat)
  | DoDispatch (m : nat).

Definition act (st : state) (a : action) : state :=
  match a with
  | New name broadcast params => snd (new_Message name broadcast params st)
  | Call name broadcast params => snd (call_Message name broadcast params st)
  | DoEnqueue m => default st (enqueue m st)
  | DoDispatch m => default st (dispatch m st)
  end.

Definition script (st : state) (acts : list action) : state :=
  foldl act st acts.

Definition is_message (o : object) : bool :=
  if o is YateMessage _ _ _ _ _ then true else false.

(** What a request may carry for the statements below: [enqueue]
    nothing or an empty object, [dispatch] a message. *)
Definition request_ok (h : list object) (q : request) : Prop :=
  match q with
  | Enqueue ThisUndefined => True
  | Enqueue (ThisObject r) => h !! r = Some Fresh
  | Dispatch (ThisObject m) => is_message <$> h !! m = Some true
  | Dispatch ThisUndefined => False
  end.

(** The arrow functions of the messages of a heap hold nothing or an
    empty object. *)
Definition fresh_this (h : list object) (f : option closure) : Prop :=
  match f with
  | Some (ArrowEnqueue (ThisObject r)) => h !! r = Some Fresh
  | _ => True
  end.

Definition closure_ok (h : list object) (o : object) : Prop :=
  match o with
  | YateMessage _ _ _ e d => fresh_this h e ∧ fresh_this h d
  | Fresh => True
  end.

Definition state_ok (st : state) : Prop :=
  Forall (closure_ok (heap st)) (heap st)
  ∧ Forall (request_ok (heap st)) (client st).

End Msg.

(** ** The base64 helpers [Engine.atob] and [Engine.btoa]

    Both are one call of the platform's [Buffer], which is not part of
    the repository.  A buffer is a list of bytes, each an [N] below 256. *)

Module B64.

Definition is_byte (x : N) : Prop := x < 256.

(** What [btoa] may be given: text, or bytes. *)
Inductive source : Type :=
  | Text (s : jsstring)
  | Raw (b : list N).

Definition high_surrogate (c : N) : bool := (55296 <=? c) && (c <? 56320).
Definition low_surrogate (c : N) : bool := (56320 <=? c) && (c <? 57344).

(** Modelled from the spec: the text to bytes conversion of the
    platform's [Buffer.from(line)], missing from the sources ("raw
    bytes-or-text to base64").  Code units are paired into code points,
    an unpaired surrogate becoming U+FFFD. *)
Fixpoint code_points (s : jsstring) : list N :=
  match s with
  | [] => []
  | c :: s' =>
      if high_surrogate c then
        match s' with
        | d :: s'' =>
            if low_surrogate d
            then (65536 + (c - 55296) * 1024 + (d - 56320)) :: code_points s''
            else 65533 :: code_points s'
        | [] => [65533]
        end
      else if low_surrogate c then 65533 :: code_points s'
      else c :: code_points s'
  end.

(** Modelled from the spec: UTF-8, the default encoding of
    [Buffer.from(line)] for text, missing from the sources. *)
Definition utf8_of (cp : N) : list N :=
  if cp <? 128 then [cp]
  else if cp <? 2048 then [192 + cp / 64; 128 + cp mod 64]
  else if cp <? 65536 then
    [224 + cp / 4096; 128 + (cp / 64) mod 64; 128 + cp mod 64]
  else
    [240 + (cp / 262144) mod 8; 128 + (cp / 4096) mod 64;
     128 + (cp / 64) mod 64; 128 + cp mod 64].

Definition utf8 (s : jsstring) : list N :=
  flat_map utf8_of (code_points s).

(** [Buffer.from(line)] *)
Definition Buffer_from (line : source) : list N :=
  match line with
  | Text s => utf8 s
  | Raw b => map (λ x, x mod 256) b
  end.

(** Modelled from the spec: the "standard base64 alphabet" of the
    platform's codec, missing from the sources: [A-Z], [a-z], [0-9], [+]
    and [/], with [=] as padding. *)
Definition digit (i : N) : N :=
  if i <? 26 then 65 + i
  else if i <? 52 then 97 + (i - 26)
  else if i <? 62 then 48 + (i - 52)
  else if i =? 62 then 43
  else 47.

Definition pad : N := 61.

(** Modelled from the spec: the value of a character of that alphabet,
    the inverse of [digit]; part of the platform's codec. *)
Definition digit_value (c : N) : option N :=
  if (65 <=? c) && (c <=? 90) then Some (c - 65)
  else if (97 <=? c) && (c <=? 122) then Some (c - 97 + 26)
  else if (48 <=? c) && (c <=? 57) then Some (c - 48 + 52)
  else if c =? 43 then Some 62
  else if c =? 47 then Some 63
  else None.

(** Modelled from the spec: [buffer.toString("base64")], missing from
    the sources: three bytes give four digits, a last group of one or two
    bytes is padded ("no padding stripping"). *)
Fixpoint encode (b : list N) : jsstring :=
  match b with
  | [] => []
  | [x] => [digit (x / 4); digit ((x mod 4) * 16); pad; pad]
  | [x; y] =>
      [digit (x / 4); digit ((x mod 4) * 16 + y / 16);
       digit ((y mod 16) * 4); pad]
  | x :: y :: z :: b' =>
      digit (x / 4) :: digit ((x mod 4) * 16 + y / 16)
      :: digit ((y mod 16) * 4 + z / 64) :: digit (z mod 64) :: encode b'
  end.

(** Modelled from the spec: [Buffer.from(encoded, "base64")], missing
    from the sources ("base64 decode to raw bytes"): the digits up to the
    first padding character, four digits giving three bytes; characters
    outside the alphabet carry no data. *)
Fixpoint digits (s : jsstring) : list N :=
  match s with
  | [] => []
  | c :: s' =>
      if c =? pad then []
      else match digit_value c with
           | Some v => v :: digits s'
           | None => digits s'
           end
  end.

(** Modelled from the spec: the bytes a run of digits stands for, part
    of the platform's [Buffer.from(encoded, "base64")]. *)
Fixpoint decode (v : list N) : list N :=
  match v with
  | a :: b :: c :: d :: v' =>
      (a * 4 + b / 16) :: ((b mod 16) * 16 + c / 4) :: ((c mod 4) * 64 + d)
      :: decode v'
  | [a; b; c] => [a * 4 + b / 16; (b mod 16) * 16 + c / 4]
  | [a; b] => [a * 4 + b / 16]
  | _ => []
  end.

(** [Engine.atob = (encoded) => Buffer.from(encoded, "base64")] *)
Definition atob (encoded : jsstring) : list N :=
  decode (digits encoded).

(** [Engine.btoa = (line) => Buffer.from(line).toString("base64")] *)
Definition btoa (line : source) : jsstring :=
  encode (Buffer_from line).

End B64.

(** * Properties *)

(** ** Numbers *)

Section NumberFacts.
Import JS.

Lemma num_le_spec a b : num_le a b = true ↔ le_number a b.
Proof.
  split.
  - destruct a as [| | |x], b as [| | |y]; simpl; try discriminate;
      try (intros _; constructor; discriminate).
    destruct (x ?= y)%Q eqn:E; try discriminate; intros _; constructor.
    + apply Qeq_alt in E. rewrite E. apply Qle_refl.
    + apply Qlt_le_weak. by apply Qlt_alt.
  - destruct 1 as [x y H|b H|a H].
    + simpl. pose proof (proj1 (Qle_alt x y) H) as H'.
      destruct (x ?= y)%Q; congruence.
    + destruct b; done.
    + destruct a; done.
Qed.

Lemma num_lt_fin x y : num_lt (Fin x) (Fin y) = true ↔ (x < y)%Q.
Proof.
  simpl. rewrite Qlt_alt. destruct (x ?= y)%Q; split; done.
Qed.

Lemma num_lt_spec a b : num_lt a b = true ↔ lt_number a b.
Proof.
  split.
  - destruct a as [| | |x], b as [| | |y]; try discriminate;
      intros H; constructor. by apply num_lt_fin.
  - destruct 1; try done. by apply num_lt_fin.
Qed.

Lemma num_lt_int a b : num_lt (int a) (int b) = (a <? b)%Z.
Proof.
  unfold int. destruct (a <? b)%Z eqn:E.
  - apply num_lt_fin. rewrite <- Zlt_Qlt. lia.
  - destruct (num_lt _ _) eqn:F; [|done].
    apply num_lt_fin in F. rewrite <- Zlt_Qlt in F. lia.
Qed.

Lemma num_le_int a b : num_le (int a) (int b) = (a <=? b)%Z.
Proof.
  unfold int. destruct (a <=? b)%Z eqn:E.
  - apply num_le_spec. constructor. rewrite <- Zle_Qle. lia.
  - destruct (num_le _ _) eqn:F; [|done].
    apply num_le_spec in F. inversion F as [x y H| |]; subst.
    rewrite <- Zle_Qle in H. lia.
Qed.

Lemma to_int_spec q z : to_int (Fin q) = Some z ↔ (q == inject_Z z)%Q.
Proof.
  unfold to_int. split.
  - destruct (Pos.eqb_spec (Qden (Qred q)) 1) as [E|]; [|done].
    intros [= <-]. rewrite <- (Qred_correct q) at 1.
    destruct (Qred q) as [n d]; simpl in *. subst d. reflexivity.
  - intros E. apply Qred_complete in E. rewrite E.
    unfold inject_Z. rewrite Qred_identity by apply Z.gcd_1_r. done.
Qed.

Lemma to_int_int z : to_int (int z) = Some z.
Proof. apply to_int_spec. reflexivity. Qed.

End NumberFacts.

(** ** The debug / alarm state *)

Section EngineFacts.
Import JS Eng.

Lemma severity_Some k : is_Some (severity k) ↔ (0 ≤ k ≤ 10)%Z.
Proof.
  split.
  - intros [s H]. destruct k as [|p|p]; [lia| |done].
    do 5 (try destruct p as [p|p|]; try done; try lia).
  - intros H.
    assert (k ∈ [0;1;2;3;4;5;6;7;8;9;10]%Z) as Hk.
    { repeat (rewrite elem_of_cons). lia. }
    repeat (apply elem_of_cons in Hk as [->|Hk]; [by eexists|]).
    by apply elem_of_nil in Hk.
Qed.

(** [is_severity] holds of the integers 0 to 10 and of nothing else. *)
Lemma is_severity_spec n :
  is_severity n = true ↔
  ∃ q z, n = Fin q ∧ (q == inject_Z z)%Q ∧ (0 ≤ z ≤ 10)%Z.
Proof.
  unfold is_severity, Engine_at. split.
  - destruct n as [| | |q]; try done.
    destruct (to_int (Fin q)) as [z|] eqn:E; [|done].
    destruct (severity z) eqn:F; [|done]. intros _.
    exists q, z. split; [done|]. split; [by apply to_int_spec|].
    apply severity_Some. by eexists.
  - intros (q & z & -> & E & Hz). apply to_int_spec in E. rewrite E.
    apply severity_Some in Hz as [s ->]. done.
Qed.

Lemma is_severity_int z : is_severity (int z) = true ↔ (0 ≤ z ≤ 10)%Z.
Proof.
  unfold is_severity, Engine_at. rewrite to_int_int.
  rewrite <- severity_Some.
  destruct (severity z); split; intros H; try done; try (by eexists).
Qed.

Lemma output_neq w args : output w args ≠ w.
Proof.
  destruct w as [e o]. unfold output. simpl. intros [= H].
  apply (f_equal length) in H. rewrite length_app in H. simpl in H. lia.
Qed.

Lemma tag_int e z s :
  severity z = Some s →
  tag e (int z) = js "<" ++ _debugName e ++ js ":" ++ js s ++ js ">".
Proof. intros H. unfold tag, Engine_at. by rewrite to_int_int, H. Qed.

(** What [alarm] does at a number. *)
Lemma alarm_num w now n args :
  alarm w now (VNum n) args =
  if num_lt (int (-1)) n && num_lt n (int 11)
  then output w (line (engine w) now n args) else w.
Proof. done. Qed.

(** What [debug] does at a number. *)
Lemma debug_num w now n args :
  debug w now (VNum n) args =
  if num_lt (int (-1)) n && truthy (_debug (engine w))
     && num_le n (_debugLevel (engine w))
  then output w (line (engine w) now n args) else w.
Proof. done. Qed.

End EngineFacts.

Section EngineClaims.
Import JS Eng.

(** C2, as stated, fails: the level [-1/2] is outside [0 ≤ level ≤ 10],
    yet [alarm(-0.5, "x")] hands a line to [output]; its tag carries
    [undefined], as [Engine[-0.5]] is no property. *)
Lemma alarm_fraction_counterexample :
  ¬ (0 <= -1 # 2)%Q ∧
  out (alarm (init (js "yate")) (js "T") (VNum (Fin (-1 # 2))) [VStr (js "x")])
  = [[VStr (js "T"); VStr (js "<yate:undefined>"); VStr (js "x")]].
Proof. split; [|reflexivity]. intros H. by vm_compute in H. Qed.

(** C2 (amended).  [Engine.alarm] hands exactly one line
    [now, <name:SEVERITY>, ...args] to [output] when the level is a
    number strictly between -1 and 11, and does nothing otherwise (a
    level at or below -1, at or above 11, NaN, or not a number).  For an
    integer level that is: a line if and only if [0 ≤ level ≤ 10], and
    then SEVERITY is the name the table gives the level.  A string
    followed by a number is a label: the call behaves as the call with
    the number as level and the remaining arguments.  Neither the enabled
    flag nor the configured level has any influence. *)
Theorem alarm_emits_between (now : jsstring) (args : list jsval) :
  (∀ w n,
      (alarm w now (VNum n) args = output w (line (engine w) now n args) ∧
       (lt_number (int (-1)) n ∧ lt_number n (int 11)))
      ∨ (alarm w now (VNum n) args = w ∧
         ¬ (lt_number (int (-1)) n ∧ lt_number n (int 11))))
  ∧ (∀ w z,
      alarm w now (VNum (int z)) args =
      if decide (0 ≤ z ≤ 10)%Z
      then output w (VStr now
             :: VStr (js "<" ++ _debugName (engine w) ++ js ":"
                      ++ js (default ""%string (severity z)) ++ js ">")
             :: args)
      else w)
  ∧ (∀ w label n,
      alarm w now (VStr label) (VNum n :: args) = alarm w now (VNum n) args)
  ∧ (∀ w level,
      typeof level ≠ TNumber →
      (typeof level = TString → typeof (hd VUndefined args) ≠ TNumber) →
      alarm w now level args = w)
  ∧ (∀ name o level l1 d1 l2 d2,
      out (alarm (mkWorld (mkEngine name l1 d1) o) now level args)
      = out (alarm (mkWorld (mkEngine name l2 d2) o) now level args)).
Proof.
  split_and!.
  - intros w n. rewrite alarm_num.
    destruct (num_lt (int (-1)) n) eqn:E1, (num_lt n (int 11)) eqn:E2; simpl;
      [left|right..]; (split; [done|]); rewrite <- !num_lt_spec;
      [done|intros [? ?]; congruence..].
  - intros w z. rewrite alarm_num, !num_lt_int.
    destruct (decide (0 ≤ z ≤ 10)%Z) as [Hz|Hz].
    + replace (-1 <? z)%Z with true by lia. replace (z <? 11)%Z with true by lia.
      simpl. unfold line. apply severity_Some in Hz as [s Hs].
      by rewrite (tag_int _ _ s), Hs.
    + destruct (-1 <? z)%Z eqn:E1, (z <? 11)%Z eqn:E2; simpl; try done. lia.
  - done.
  - intros w level Hn Hs. unfold alarm, alarm_shift.
    destruct level; try done.
    destruct args as [|[] ?]; simpl in *; try done. by destruct Hs.
  - intros name o level l1 d1 l2 d2. unfold alarm.
    destruct (alarm_shift level args) as [[] rest]; try done.
    destruct (_ && _); done.
Qed.

Lemma alarm_emits_between_witness :
  alarm (init (js "yate")) (js "T") VNull [VStr (js "x")] = init (js "yate").
Proof.
  destruct (alarm_emits_between (js "T") [VStr (js "x")])
    as (_ & _ & _ & H & _).
  apply H; simpl; discriminate.
Defined.

(** C3, as stated, fails: [-1/2] is a negative number, yet
    [debug(-0.5, "x")] hands a line to [output] in the initial state
    (enabled, level 8). *)
Lemma debug_fraction_counterexample :
  (-1 # 2 < 0)%Q ∧
  out (debug (init (js "yate")) (js "T") (VNum (Fin (-1 # 2))) [VStr (js "x")])
  = [[VStr (js "T"); VStr (js "<yate:undefined>"); VStr (js "x")]].
Proof. split; reflexivity. Qed.

(** C3 (amended).  [Engine.debug] hands exactly one line to [output] if
    and only if the level is a number greater than -1, the enabled flag
    is true and the level is at most the configured level; for an
    integer level and an integer configured level [c] that is
    [0 ≤ level ≤ c].  In every other case, a level that is not a number
    included, it does nothing. *)
Theorem debug_emits_iff (now : jsstring) (args : list jsval) :
  (∀ w n,
      (debug w now (VNum n) args = output w (line (engine w) now n args) ∧
       (lt_number (int (-1)) n ∧ truthy (_debug (engine w)) = true
        ∧ le_number n (_debugLevel (engine w))))
      ∨ (debug w now (VNum n) args = w ∧
         ¬ (lt_number (int (-1)) n ∧ truthy (_debug (engine w)) = true
            ∧ le_number n (_debugLevel (engine w)))))
  ∧ (∀ name c d o z,
      let w := mkWorld (mkEngine name (int c) d) o in
      debug w now (VNum (int z)) args =
      if truthy d && bool_decide (0 ≤ z ≤ c)%Z
      then output w (line (engine w) now (int z) args)
      else w)
  ∧ (∀ w level, typeof level ≠ TNumber → debug w now level args = w).
Proof.
  split_and!.
  - intros w n. rewrite debug_num.
    destruct (num_lt (int (-1)) n) eqn:E1,
      (truthy (_debug (engine w))) eqn:E2,
      (num_le n (_debugLevel (engine w))) eqn:E3; simpl;
      [left|right..]; (split; [done|]);
      rewrite <- num_lt_spec, <- num_le_spec;
      [done|intros (? & ? & ?); congruence..].
  - intros name c d o z w. subst w. rewrite debug_num.
    cbn [engine _debug _debugLevel]. rewrite num_lt_int, num_le_int.
    destruct (truthy d); simpl.
    + case_bool_decide as H.
      * replace (-1 <? z)%Z with true by lia.
        by replace (z <=? c)%Z with true by lia.
      * destruct (-1 <? z)%Z eqn:E1, (z <=? c)%Z eqn:E2; simpl; try done. lia.
    + by rewrite andb_false_r.
  - intros w level H. by destruct level.
Qed.

Lemma debug_emits_iff_witness :
  debug (init (js "yate")) (js "T") (VStr (js "5")) [VStr (js "x")]
  = init (js "yate").
Proof.
  destruct (debug_emits_iff (js "T") [VStr (js "x")]) as (_ & _ & H).
  apply H; simpl; discriminate.
Defined.

(** C4: [debugEnabled] never writes the enabled flag and always returns
    it, whatever it is given; [debugEnabled(false)] in the initial state
    leaves the flag [true] and returns [true]. *)
Theorem debugEnabled_never_sets :
  (∀ e value, debugEnabled e value = (e, _debug e))
  ∧ debugEnabled (engine (init (js "yate"))) (VBool false)
    = (engine (init (js "yate")), VBool true).
Proof. split; reflexivity. Qed.

(** C5, as stated, fails: [debugLevel(100)] in the initial state leaves
    100 as the configured level. *)
Lemma debugLevel_out_of_range_counterexample :
  _debugLevel (engine (fst (step (init (js "yate")) (DebugLevel (VNum (int 100))))))
  = int 100
  ∧ is_severity (int 100) = false.
Proof. split; reflexivity. Qed.

(** C5 (amended).  The configured level is initialised to 8, one of the
    eleven severities, and is one of them after every call of the facade
    whose argument, if the call is [debugLevel] with a number, is one of
    them; [debugLevel] stores any number it is given unchanged. *)
Theorem level_stays_severity :
  (∀ name, _debugLevel (engine (init name)) = int 8)
  ∧ is_severity (int 8) = true
  ∧ (∀ w c,
      is_severity (_debugLevel (engine w)) = true → keeps_level c →
      is_severity (_debugLevel (engine (fst (step w c)))) = true)
  ∧ (∀ w cs,
      is_severity (_debugLevel (engine w)) = true → Forall keeps_level cs →
      is_severity (_debugLevel (engine (run w cs))) = true)
  ∧ (∀ w n, _debugLevel (engine (fst (step w (DebugLevel (VNum n))))) = n).
Proof.
  assert (∀ w c,
    is_severity (_debugLevel (engine w)) = true → keeps_level c →
    is_severity (_debugLevel (engine (fst (step w c)))) = true) as Hstep.
  { intros w c Hw Hc. destruct c; simpl; try done.
    - unfold debug. destruct level; try done. by destruct (_ && _).
    - unfold alarm. destruct (alarm_shift level args) as [[] ?]; try done.
      by destruct (_ && _).
    - by destruct name.
    - destruct level; try done. simpl. by apply Hc.
    - by destruct command. }
  split_and!; try done.
  intros w cs Hw Hcs. revert w Hw.
  induction Hcs as [|c cs Hc _ IH]; intros w Hw; [done|].
  apply IH. by apply Hstep.
Qed.

Lemma level_stays_severity_witness :
  is_severity
    (_debugLevel (engine (fst (step (init (js "yate")) (DebugLevel (VNum (int 3)))))))
  = true.
Proof.
  destruct level_stays_severity as (_ & _ & H & _).
  apply H; [reflexivity|]. intros n [= <-]. reflexivity.
Defined.

(** C9.  For every number [level], [debugAt(level)] is true if and only
    if [level] is at most the number [debugLevel()] returns; the enabled
    flag has no part in it. *)
Theorem debugAt_iff_le (e : Engine) (level : number) :
  ∃ cur, debugLevel e VUndefined = (e, VNum cur)
    ∧ (debugAt e level = true ↔ le_number level cur)
    ∧ (∀ d, debugAt (mkEngine (_debugName e) (_debugLevel e) d) level
            = debugAt e level).
Proof.
  exists (_debugLevel e). split_and!; [done| |done].
  apply num_le_spec.
Qed.

(** C10.  [debug], [alarm] and [debugAt] leave the name, the configured
    level and the enabled flag as they were, and so does every call that
    is not one of the accessors [debugName], [debugLevel],
    [debugEnabled] and [setDebug]. *)
Theorem diagnostics_preserve_state :
  (∀ w now level args, engine (debug w now level args) = engine w)
  ∧ (∀ w now level args, engine (alarm w now level args) = engine w)
  ∧ (∀ w level, fst (step w (DebugAt level)) = w)
  ∧ (∀ w c, is_accessor c = false → engine (fst (step w c)) = engine w).
Proof.
  assert (∀ w now level args, engine (debug w now level args) = engine w)
    as Hd.
  { intros. unfold debug. destruct level; try done. by destruct (_ && _). }
  assert (∀ w now level args, engine (alarm w now level args) = engine w)
    as Ha.
  { intros. unfold alarm. destruct (alarm_shift level args) as [[] ?];
      try done. by destruct (_ && _). }
  split_and!; try done.
  intros w c Hc. destruct c; try done; simpl; auto.
Qed.

Lemma diagnostics_preserve_state_witness :
  engine (fst (step (init (js "yate"))
                 (Alarm (js "T") (VNum (int 5)) [VStr (js "x")])))
  = engine (init (js "yate")).
Proof.
  destruct diagnostics_preserve_state as (_ & _ & _ & H).
  apply H. reflexivity.
Defined.

End EngineClaims.

(** ** The Message constructor *)

Section MessageClaims.
Import JS Msg.

Lemma lookup_snoc {A} (l : list A) (x : A) : (l ++ [x]) !! length l = Some x.
Proof. by rewrite lookup_app_r, Nat.sub_diag. Qed.

(** The sibling [dispatch] hands the client the message it is called
    on. *)
Lemma dispatch_hands_message name broadcast params st :
  let '(m, st1) := new_Message name broadcast params st in
  ∃ st2, dispatch m st1 = Some st2
    ∧ client st2 = client st ++ [Dispatch (ThisObject m)]
    ∧ hands_over (Dispatch (ThisObject m)) m.
Proof.
  unfold new_Message, Message, alloc, dispatch. simpl.
  rewrite lookup_snoc. eexists. split_and!; done.
Qed.

(** Without [new] the closure holds [undefined]. *)
Lemma enqueue_without_new name broadcast params st :
  let '(m, st1) := call_Message name broadcast params st in
  ∃ st2, enqueue m st1 = Some st2
    ∧ client st2 = client st ++ [Enqueue ThisUndefined].
Proof.
  unfold call_Message, Message, alloc, enqueue. simpl.
  rewrite lookup_snoc. by eexists.
Qed.

(** C6: after [m = new Message(name, broadcast, params)], [m.enqueue()]
    hands the client not [m] but the object [new] had created for the
    call of the constructor, which has no property of its own; at the
    failing input the client receives object 0 while the message is
    object 1. *)
Theorem enqueue_hands_constructor_this :
  (∀ name broadcast params st,
      let '(m, st1) := new_Message name broadcast params st in
      let this := length (heap st) in
      ∃ st2, enqueue m st1 = Some st2
        ∧ client st2 = client st ++ [Enqueue (ThisObject this)]
        ∧ heap st2 !! this = Some Fresh
        ∧ heap st2 !! m
          = Some (YateMessage name broadcast params
                    (Some (ArrowEnqueue (ThisObject this))) (Some FunDispatch))
        ∧ ¬ hands_over (Enqueue (ThisObject this)) m)
  ∧ (let '(m, st1) :=
       new_Message (VStr (js "call.route")) (VBool false) VUndefined
         (mkState [] []) in
     m = 1%nat ∧
     enqueue m st1
     = Some (mkState
               [Fresh;
                YateMessage (VStr (js "call.route")) (VBool false) VUndefined
                  (Some (ArrowEnqueue (ThisObject 0))) (Some FunDispatch)]
               [Enqueue (ThisObject 0)])).
Proof.
  split; [|by vm_compute].
  intros name broadcast params st.
  unfold new_Message, Message, alloc, enqueue. simpl.
  rewrite length_app. simpl.
  replace (length (heap st) + 1)%nat with (length (heap st ++ [Fresh]))
    by (rewrite length_app; done).
  rewrite lookup_snoc. eexists. split; [done|]. simpl.
  rewrite length_app. simpl. split_and!; try done.
  - rewrite lookup_app_l by (rewrite length_app; simpl; lia).
    apply lookup_snoc.
  - replace (length (heap st) + 1)%nat with (length (heap st ++ [Fresh]))
      by (rewrite length_app; done).
    apply lookup_snoc.
  - lia.
Qed.

End MessageClaims.

(** ** The base64 helpers *)

Section Base64Claims.
Import B64.

Local Ltac Zify.zify_post_hook ::= Z.to_euclidean_division_equations.

(** Induction on byte lists three bytes at a time, as [encode] reads
    them. *)
Lemma triple_ind (P : list N → Prop) :
  P [] → (∀ x, P [x]) → (∀ x y, P [x; y]) →
  (∀ x y z l, P l → P (x :: y :: z :: l)) →
  ∀ l, P l.
Proof.
  intros H0 H1 H2 H3 l.
  assert (P l ∧ (∀ x, P (x :: l)) ∧ (∀ x y, P (x :: y :: l))) as [? _];
    [|done].
  induction l as [|z l (IH0 & IH1 & IH2)]; [done|].
  split_and!; auto.
Qed.

Lemma digit_value_digit i :
  i < 64 → digit_value (digit i) = Some i ∧ digit i ≠ pad.
Proof.
  intros H.
  assert (i ∈ (N.of_nat <$> seq 0 64)) as Hi.
  { apply list_elem_of_fmap. exists (N.to_nat i). split; [lia|].
    apply elem_of_seq. lia. }
  vm_compute in Hi.
  repeat (apply elem_of_cons in Hi as [->|Hi]; [by vm_compute|]).
  by apply elem_of_nil in Hi.
Qed.

Lemma digits_digit i s :
  i < 64 → digits (digit i :: s) = i :: digits s.
Proof.
  intros H. destruct (digit_value_digit i H) as [Hv Hp].
  simpl. apply N.eqb_neq in Hp. by rewrite Hp, Hv.
Qed.

Lemma digits_pad s : digits (pad :: s) = [].
Proof. done. Qed.

(** Decoding the digits of an encoded buffer gives the buffer back. *)
Lemma decode_encode b : Forall is_byte b → decode (digits (encode b)) = b.
Proof.
  unfold is_byte.
  induction b as [|x|x y|x y z b IH] using triple_ind; intros Hb.
  - done.
  - apply Forall_cons in Hb as [Hx _].
    cbn [encode]. rewrite !digits_digit, digits_pad by lia.
    cbn [decode]. f_equal. lia.
  - apply Forall_cons in Hb as [Hx Hb]. apply Forall_cons in Hb as [Hy _].
    cbn [encode]. rewrite !digits_digit, digits_pad by lia.
    cbn [decode]. repeat f_equal; lia.
  - apply Forall_cons in Hb as [Hx Hb]. apply Forall_cons in Hb as [Hy Hb].
    apply Forall_cons in Hb as [Hz Hb].
    cbn [encode]. rewrite !digits_digit by lia.
    cbn [decode]. rewrite IH by done. repeat f_equal; lia.
Qed.

Lemma utf8_of_bytes cp : Forall is_byte (utf8_of cp).
Proof.
  unfold utf8_of, is_byte.
  repeat case_match;
    repeat (first [apply Forall_nil_2 | apply Forall_cons_2]);
    cbv beta;
    repeat match goal with
      | H : (_ <? _) = true |- _ => apply N.ltb_lt in H
      | H : (_ <? _) = false |- _ => apply N.ltb_ge in H
      end; lia.
Qed.

Lemma utf8_bytes s : Forall is_byte (utf8 s).
Proof.
  unfold utf8. induction (code_points s) as [|cp l IH]; simpl; [done|].
  apply Forall_app. split; [apply utf8_of_bytes|done].
Qed.

Lemma Buffer_from_bytes line : Forall is_byte (Buffer_from line).
Proof.
  destruct line as [s|b]; simpl; [apply utf8_bytes|].
  apply Forall_fmap, Forall_true. intros x. unfold is_byte. simpl. lia.
Qed.

(** Text of code units below 128 is its own byte sequence. *)
Lemma utf8_ascii s : Forall (λ c, c < 128) s → utf8 s = s.
Proof.
  unfold utf8. induction 1 as [|c s Hc _ IH]; [done|].
  simpl in *. unfold high_surrogate, low_surrogate.
  assert ((55296 <=? c) = false) as -> by (apply N.leb_gt; lia).
  assert ((56320 <=? c) = false) as -> by (apply N.leb_gt; lia).
  simpl. unfold utf8_of at 1.
  assert ((c <? 128) = true) as -> by (by apply N.ltb_lt).
  simpl. by rewrite IH.
Qed.

(** C7.  For every string [s], the empty one and strings with code units
    outside ASCII included, [atob(btoa(s))] is the byte sequence
    [Buffer.from(s)] of [s] (its UTF-8 encoding, which for ASCII text is
    the text itself); for bytes, it is the bytes. *)
Theorem atob_btoa_roundtrip :
  (∀ s, atob (btoa (Text s)) = Buffer_from (Text s))
  ∧ (∀ b, atob (btoa (Raw b)) = Buffer_from (Raw b))
  ∧ atob (btoa (Text [])) = []
  ∧ atob (btoa (Text (js "hello"))) = js "hello"
  ∧ atob (btoa (Text [233; 8364; 55357; 56832]))
    = [195; 169; 226; 130; 172; 240; 159; 152; 128].
Proof.
  assert (∀ line, atob (btoa line) = Buffer_from line) as H.
  { intros line. unfold atob, btoa.
    apply decode_encode, Buffer_from_bytes. }
  split_and!; try done.
Qed.

End Base64Claims.

(** ** Template substitution *)

Section TemplateFacts.
Import Regex Template.

Lemma take_app_sub {A} (a b : list A) :
  take (length (a ++ b) - length b) (a ++ b) = a.
Proof.
  rewrite length_app.
  replace (length a + length b - length b)%nat with (length a) by lia.
  by rewrite take_app_length.
Qed.

(** A greedy repetition keeps the success it reaches after running
    through a stretch of the class. *)
Lemma star_through {R} (p : N → bool) l s (k : jsstring → option R) r :
  forallb p l = true → star p s k = Some r → star p (l ++ s) k = Some r.
Proof.
  intros Hl Hs. induction l as [|c l IH]; [done|].
  simpl in *. apply andb_true_iff in Hl as [-> Hl]. by rewrite IH.
Qed.

(** A successful run hands its continuation a suffix of the input. *)
Lemma star_suffix {R} (p : N → bool) s (k : jsstring → option R) res :
  star p s k = Some res → ∃ t, t `suffix_of` s ∧ k t = Some res.
Proof.
  induction s as [|c s IH]; simpl.
  - intros H. by exists [].
  - destruct (p c).
    + destruct (star p s k) as [r|] eqn:E.
      * intros [= ->]. destruct (IH eq_refl) as (t & Ht & Hk).
        exists t. split; [by apply suffix_cons_r|done].
      * intros H. by exists (c :: s).
    + intros H. by exists (c :: s).
Qed.

Lemma run_suffix {R} (r : regex) :
  ∀ s cap (k : jsstring → jsstring → option R) res,
  run r s cap k = Some res →
  ∃ t cap', t `suffix_of` s ∧ k t cap' = Some res.
Proof.
  induction r as [c|p|p|r1 IH1 r2 IH2|r IH]; intros s cap k res; cbn [run].
  - destruct s as [|d s]; [done|]. destruct (c =? d); [|done].
    intros H. exists s, cap. split; [by apply suffix_cons_r|done].
  - destruct s as [|d s]; [done|]. destruct (p d); [|done].
    intros H. exists s, cap. split; [by apply suffix_cons_r|done].
  - destruct s as [|d s]; [done|]. destruct (p d); [|done].
    intros (t & Ht & Hk)%star_suffix.
    exists t, cap. split; [by apply suffix_cons_r|done].
  - intros (t1 & cap1 & Ht1 & H)%IH1.
    apply IH2 in H as (t2 & cap2 & Ht2 & H).
    exists t2, cap2. split; [by etrans|done].
  - intros (t & cap' & Ht & H)%IH. eauto.
Qed.

(** A match of the pattern of [split] is never empty: it leaves strictly
    less input than it was given. *)
Lemma exec_split_consumes s m cap t :
  exec split_re s = Some (m, cap, t) → (length t < length s)%nat.
Proof.
  unfold exec, split_re.
  generalize (Seq (Chr lbrace) (Seq (Plus not_special) (Chr rbrace))).
  intros r. cbn [run].
  destruct s as [|d s]; [done|]. destruct (dollar =? d); [|done].
  intros (t' & cap' & Ht & H)%run_suffix.
  injection H as _ _ <-.
  apply suffix_length in Ht. simpl. lia.
Qed.

(** The loop of [split] never runs out of turns on the pattern of
    [replaceParams]: any number of turns from the length of the input on
    gives the same segments. *)
Lemma split_loop_fuel n : ∀ rest lit f1 f2,
  (length rest ≤ n)%nat → (length rest ≤ f1)%nat → (length rest ≤ f2)%nat →
  split_loop split_re f1 lit rest = split_loop split_re f2 lit rest.
Proof.
  induction n as [|n IH]; intros rest lit f1 f2 Hn H1 H2.
  - destruct rest; [by destruct f1, f2|simpl in Hn; lia].
  - destruct rest as [|c rest]; [by destruct f1, f2|].
    simpl in Hn, H1, H2.
    destruct f1 as [|f1]; [lia|]. destruct f2 as [|f2]; [lia|].
    cbn [split_loop].
    destruct (exec split_re (c :: rest)) as [[[m cap] t]|] eqn:E.
    + apply exec_split_consumes in E. simpl in E.
      case_decide; [apply IH; lia|].
      do 2 f_equal. apply IH; lia.
    + apply IH; lia.
Qed.

(** A match of that pattern cuts the input in two, and its capture is
    the text matched. *)
Lemma exec_split_parts s m cap t :
  exec split_re s = Some (m, cap, t) → cap = m ∧ s = m ++ t.
Proof.
  unfold exec, split_re.
  generalize (Seq (Chr dollar)
                (Seq (Chr lbrace) (Seq (Plus not_special) (Chr rbrace)))).
  intros r. cbn [run].
  intros (t' & cap' & [pre ->] & H)%run_suffix.
  injection H as <- <- <-. split; [done|].
  by rewrite take_app_sub.
Qed.

(** The segments of [split] are the input, cut: nothing is lost and
    nothing is added. *)
Lemma split_loop_concat fuel : ∀ lit rest,
  concat (split_loop split_re fuel lit rest) = lit ++ rest.
Proof.
  induction fuel as [|fuel IH]; intros lit rest.
  - destruct rest; simpl; by rewrite !app_nil_r.
  - destruct rest as [|c rest]; [simpl; by rewrite !app_nil_r|].
    cbn [split_loop].
    destruct (exec split_re (c :: rest)) as [[[m cap] t]|] eqn:E.
    + case_decide.
      * rewrite IH. by rewrite <- app_assoc.
      * apply exec_split_parts in E as [-> E]. simpl.
        rewrite IH. simpl. by rewrite E.
    + rewrite IH. by rewrite <- app_assoc.
Qed.

Theorem split_concat s : concat (split split_re s) = s.
Proof.
  unfold split. destruct s as [|c s]; [by vm_compute|].
  apply (split_loop_concat _ []).
Qed.

(** The pattern of [split] matches a placeholder at the head of the
    input, and captures it whole. *)
Lemma exec_split_ph id rest :
  identifier id = true →
  exec split_re (ph id ++ rest) = Some (ph id, ph id, rest).
Proof.
  unfold identifier. destruct id as [|c id]; [done|]. simpl.
  intros [Hc Hid]%andb_true_iff.
  unfold exec, split_re, ph. cbn [run app]. rewrite !N.eqb_refl, Hc.
  rewrite <- !app_assoc. cbn [app].
  erewrite star_through; [reflexivity|done|].
  cbn [star]. assert (not_special rbrace = false) as -> by done.
  rewrite N.eqb_refl.
  pose proof (take_app_sub (dollar :: lbrace :: c :: id ++ [rbrace]) rest) as E.
  cbn [app] in E. rewrite <- !app_assoc in E. cbn [app] in E.
  by rewrite E.
Qed.

(** Neither pattern matches at the head of an input that does not start
    with [${]. *)
Lemma exec_not_open s :
  (∀ s', s ≠ dollar :: lbrace :: s') →
  exec split_re s = None ∧ exec key_re s = None.
Proof.
  intros H. unfold exec, split_re, key_re.
  destruct s as [|c [|d s]]; cbn [run].
  - done.
  - by destruct (dollar =? c).
  - destruct (N.eqb_spec dollar c) as [<-|]; [|done].
    destruct (N.eqb_spec lbrace d) as [<-|]; [|done].
    by destruct (H s).
Qed.

Lemma no_open_cons c l rest :
  no_open (c :: l) = true → (∀ s', rest ≠ lbrace :: s') →
  no_open l = true ∧ ∀ s', c :: l ++ rest ≠ dollar :: lbrace :: s'.
Proof.
  intros Hl Hr. destruct l as [|d l].
  - split; [done|]. intros s' [= -> E]. by destruct (Hr s').
  - cbn [no_open] in Hl. apply andb_true_iff in Hl as [Hcd Hl].
    split; [done|]. intros s' [= -> -> _]. by rewrite !N.eqb_refl in Hcd.
Qed.

(** The loop of [split] runs through a literal without a match. *)
Lemma split_loop_literal l fuel acc rest :
  no_open l = true → (∀ s', rest ≠ lbrace :: s') →
  (length (l ++ rest) ≤ fuel)%nat →
  split_loop split_re fuel acc (l ++ rest)
  = split_loop split_re (fuel - length l) (acc ++ l) rest.
Proof.
  revert fuel acc. induction l as [|c l IH]; intros fuel acc Hl Hr Hf.
  - simpl. by rewrite Nat.sub_0_r, app_nil_r.
  - destruct (no_open_cons c l rest Hl Hr) as [Hl' Hc].
    destruct fuel as [|fuel]; [simpl in Hf; lia|].
    cbn [app split_loop]. rewrite (proj1 (exec_not_open _ Hc)).
    rewrite IH by (simpl in Hf; try done; lia).
    simpl. by rewrite <- app_assoc.
Qed.

Lemma ph_length id : length (ph id) = (length id + 3)%nat.
Proof. unfold ph. simpl. rewrite length_app. simpl. lia. Qed.

(** At a placeholder the loop closes the literal and splices the
    placeholder in. *)
Lemma split_loop_ph id fuel acc rest :
  identifier id = true →
  split_loop split_re (S fuel) acc (ph id ++ rest)
  = acc :: ph id :: split_loop split_re fuel [] rest.
Proof.
  intros Hid. pose proof (exec_split_ph id rest Hid) as E.
  unfold ph in *. cbn [app split_loop] in *. rewrite E.
  by rewrite decide_False by (by intros [? _]).
Qed.

(** The segments [split] cuts a template into. *)
Lemma split_loop_others tl : ∀ l fuel acc,
  no_open l = true →
  forallb (λ p, identifier (fst p) && forallb dot (fst p) && no_open (snd p))
    tl = true →
  (length (l ++ render_others tl) ≤ fuel)%nat →
  split_loop split_re fuel acc (l ++ render_others tl)
  = (acc ++ l) :: flat_map (λ p, [ph (fst p); snd p]) tl.
Proof.
  induction tl as [|[id l'] tl IH]; intros l fuel acc Hl Htl Hf.
  - unfold render_others in *. cbn [flat_map] in *.
    rewrite split_loop_literal; [|done|by intros s'|done].
    by destruct (fuel - length l)%nat.
  - cbn [forallb fst snd] in Htl.
    apply andb_true_iff in Htl as [[[Hid _]%andb_true_iff Hl']%andb_true_iff Htl].
    cbn [render_others flat_map fst snd] in *.
    change (flat_map (λ p, ph p.1 ++ p.2) tl) with (render_others tl) in *.
    rewrite <- app_assoc in *.
    rewrite split_loop_literal; [|done|by unfold ph|done].
    rewrite !length_app, ph_length in Hf.
    destruct (fuel - length l)%nat as [|fuel'] eqn:E; [lia|].
    rewrite split_loop_ph by done.
    rewrite IH; [done..|]. rewrite length_app. lia.
Qed.

Lemma split_template t :
  regular t = true →
  split split_re (render t)
  = first t :: flat_map (λ p, [ph (fst p); snd p]) (others t).
Proof.
  unfold regular, render. intros [Hl Htl]%andb_true_iff.
  unfold split.
  destruct (first t ++ render_others (others t)) as [|c s] eqn:E.
  - apply app_eq_nil in E as [-> E]. destruct (others t) as [|[id l] tl].
    + by vm_compute.
    + by cbn in E.
  - rewrite <- E. by apply (split_loop_others _ _ _ []).
Qed.

(** The pattern of [match] finds the identifier of a placeholder that
    has no line terminator in it. *)
Lemma search_key_ph id :
  identifier id = true → forallb dot id = true →
  search key_re (ph id) = Some (ph id, id).
Proof.
  unfold identifier. destruct id as [|c id]; [done|]. cbn [forallb].
  intros _ [Hc Hid]%andb_true_iff.
  assert (exec key_re (ph (c :: id)) = Some (ph (c :: id), c :: id, []))
    as E.
  { unfold exec, key_re, ph. cbn [app run]. rewrite !N.eqb_refl, Hc.
    apply star_through; [done|].
    cbn [star]. assert (dot rbrace = true) as -> by done.
    cbn [run]. rewrite N.eqb_refl.
    change (length (@nil N)) with 0%nat. rewrite Nat.sub_0_r, firstn_all.
    change (c :: id ++ [rbrace]) with ((c :: id) ++ [rbrace]).
    by rewrite take_app_sub. }
  unfold ph in *. cbn [app search] in *. by rewrite E.
Qed.

(** It finds nothing in a literal without [${]. *)
Lemma search_key_literal l : no_open l = true → search key_re l = None.
Proof.
  induction l as [|c l IH]; intros Hl; [done|].
  destruct (no_open_cons c l [] Hl) as [Hl' Hc]; [done|].
  rewrite app_nil_r in Hc.
  cbn [search]. rewrite (proj2 (exec_not_open _ Hc)). auto.
Qed.

Lemma push_segment_ph ps res id :
  identifier id = true → forallb dot id = true →
  concat (push_segment ps res (ph id)) = concat res ++ lookup_or_drop ps id.
Proof.
  intros H1 H2. unfold push_segment, lookup_or_drop.
  rewrite search_key_ph by done.
  destruct (ps !! id) as [v|]; simpl.
  - rewrite concat_app. simpl. by rewrite app_nil_r.
  - by rewrite app_nil_r.
Qed.

Lemma push_segment_literal ps res l :
  no_open l = true → push_segment ps res l = res ++ [l].
Proof. intros H. unfold push_segment. by rewrite search_key_literal. Qed.

Lemma foldl_push_others ps tl : ∀ res,
  forallb (λ p, identifier (fst p) && forallb dot (fst p) && no_open (snd p))
    tl = true →
  concat (foldl (push_segment ps) res (flat_map (λ p, [ph (fst p); snd p]) tl))
  = concat res ++ flat_map (λ p, lookup_or_drop ps (fst p) ++ snd p) tl.
Proof.
  induction tl as [|[id l] tl IH]; intros res Htl.
  - simpl. by rewrite app_nil_r.
  - cbn [forallb fst snd] in Htl.
    apply andb_true_iff in Htl as [[[Hid Hdot]%andb_true_iff Hl]%andb_true_iff Htl].
    cbn [flat_map fst snd app foldl].
    rewrite (push_segment_literal _ _ l) by done.
    rewrite IH by done. rewrite concat_app. simpl.
    rewrite push_segment_ph by done.
    by rewrite app_nil_r, <- !app_assoc.
Qed.

(** On a regular template [replaceParams] replaces each placeholder by
    the value of its key, or by nothing when the key is absent, and
    copies the literals. *)
Theorem replaceParams_regular ps t :
  regular t = true → replaceParams (render t) ps = expand ps t.
Proof.
  intros Ht. unfold replaceParams. rewrite split_template by done.
  apply andb_true_iff in Ht as [Hl Htl].
  cbn [foldl]. rewrite push_segment_literal by done.
  rewrite foldl_push_others by done. simpl. by rewrite app_nil_r.
Qed.

(** A string without [${] comes back unchanged. *)
Corollary replaceParams_no_open ps s :
  no_open s = true → replaceParams s ps = s.
Proof.
  intros Hs.
  pose proof (replaceParams_regular ps (mkTemplate s [])) as H.
  unfold render, expand, regular in H. simpl in H.
  rewrite !app_nil_r, andb_true_r in H. auto.
Qed.

End TemplateFacts.

Section TemplateClaims.
Import Regex Template.

(** The examples of the specification. *)
Example replaceParams_hello :
  replaceParams (js "Hello ${name}!") {[ js "name" := js "World" ]}
  = js "Hello World!".
Proof. by vm_compute. Qed.

Example replaceParams_missing_key :
  replaceParams (js "${a}${b}") {[ js "a" := js "1" ]} = js "1".
Proof. by vm_compute. Qed.

(** C1: the placeholder [${a<LF>b}], whose identifier has none of [$],
    [{], [}], is cut out by [split] as a segment of its own, but the
    pattern of [match] does not recognise it, as [.] stops at a line
    terminator: the placeholder is copied verbatim, whether its key is
    present in [params] or absent, instead of being replaced by the value
    or dropped. *)
Theorem replaceParams_line_terminator_placeholder :
  let id := js "a" ++ [10] ++ js "b" in
  identifier id = true
  ∧ split split_re (ph id) = [[]; ph id; []]
  ∧ search key_re (ph id) = None
  ∧ replaceParams (ph id) {[ id := js "1" ]} = ph id
  ∧ replaceParams (ph id) ∅ = ph id.
Proof. by vm_compute. Qed.

(** C8: the string [x${a{b}y] has no occurrence of the placeholder
    pattern (the text between [${] and [}] contains a [{]), and [split]
    leaves it in one piece; the pattern of [match] finds [${a{b}] in
    it, and the whole piece is dropped, or replaced by the value of the
    key [a{b]: the string does not come back unchanged. *)
Theorem replaceParams_drops_plain_text :
  split split_re (js "x${a{b}y") = [js "x${a{b}y"]
  ∧ search key_re (js "x${a{b}y") = Some (js "${a{b}", js "a{b")
  ∧ replaceParams (js "x${a{b}y") ∅ = []
  ∧ replaceParams (js "x${a{b}y") {[ js "a{b" := js "Z" ]} = js "Z".
Proof. by vm_compute. Qed.

End TemplateClaims.

(** ** More on template substitution *)

Section TemplateMore.
Import Regex Template.

(** A successful greedy repetition has run through a stretch of the
    class and handed the rest to its continuation. *)
Lemma star_parts {R} (p : N → bool) s (k : jsstring → option R) res :
  star p s k = Some res →
  ∃ l t, s = l ++ t ∧ forallb p l = true ∧ k t = Some res.
Proof.
  induction s as [|c s IH]; simpl.
  - intros H. by exists [], [].
  - destruct (p c) eqn:Hc.
    + destruct (star p s k) as [r|] eqn:E.
      * intros [= ->]. destruct (IH eq_refl) as (l & t & -> & Hl & Hk).
        exists (c :: l), t. simpl. by rewrite Hc, Hl.
      * intros H. by exists [], (c :: s).
    + intros H. by exists [], (c :: s).
Qed.

(** What the pattern of [split] matches is a placeholder with an
    identifier, and nothing else. *)
Lemma exec_split_inv s m cap t :
  exec split_re s = Some (m, cap, t) →
  ∃ id, identifier id = true ∧ m = ph id ∧ cap = ph id ∧ s = ph id ++ t.
Proof.
  intros E. destruct (exec_split_parts _ _ _ _ E) as [-> Hs].
  revert E. unfold exec, split_re. cbn [run].
  destruct s as [|d0 [|d1 [|c s]]]; try done;
    try (by destruct (dollar =? d0));
    try (by destruct (dollar =? d0), (lbrace =? d1)).
  destruct (N.eqb_spec dollar d0) as [<-|]; [|done].
  destruct (N.eqb_spec lbrace d1) as [<-|]; [|done].
  destruct (not_special c) eqn:Hc; [|done].
  intros (l & t0 & -> & Hl & Hk)%star_parts.
  destruct t0 as [|d2 t0]; [done|].
  destruct (N.eqb_spec rbrace d2) as [<-|]; [|done].
  assert (t0 = t) as <- by congruence. clear Hk.
  exists (c :: l). unfold identifier. cbn [forallb].
  rewrite Hc, Hl. split; [done|].
  assert (dollar :: lbrace :: c :: l ++ rbrace :: t0 = ph (c :: l) ++ t0)
    as Hs'.
  { unfold ph. simpl. by rewrite <- app_assoc. }
  rewrite Hs' in Hs. apply app_inv_tail in Hs as <-. by rewrite Hs'.
Qed.

Lemma split_loop_parse fuel : ∀ lit rest,
  (length rest ≤ fuel)%nat →
  ∃ l tl,
    Forall (λ p, identifier (fst p) = true) tl
    ∧ rest = l ++ render_others tl
    ∧ unmatched l tl
    ∧ split_loop split_re fuel lit rest
      = (lit ++ l) :: flat_map (λ p, [ph (fst p); snd p]) tl.
Proof.
  induction fuel as [|fuel IH]; intros lit rest Hf.
  - destruct rest; [|simpl in Hf; lia].
    exists [], []. split; [done|]. split; [done|]. split.
    + split; [|done]. intros pre suf E. by destruct pre, suf.
    + simpl. by rewrite app_nil_r.
  - destruct rest as [|c rest].
    { exists [], []. split; [done|]. split; [done|]. split.
      - split; [|done]. intros pre suf E. by destruct pre, suf.
      - simpl. by rewrite app_nil_r. }
    simpl in Hf. cbn [split_loop].
    destruct (exec split_re (c :: rest)) as [[[m cap] t]|] eqn:E.
    + pose proof (exec_split_consumes _ _ _ _ E) as Ht. simpl in Ht.
      apply exec_split_inv in E as (id & Hid & -> & -> & Hs).
      rewrite decide_False by (by intros [? _]).
      destruct (IH [] t) as (l & tl & Htl & -> & Hun & ->); [lia|].
      exists [], ((id, l) :: tl). split; [by constructor|]. split.
      { rewrite Hs. unfold render_others. cbn [flat_map fst snd app].
        by rewrite app_assoc. }
      split; [|by rewrite app_nil_r].
      split; [|done]. intros pre suf E. by destruct pre, suf.
    + destruct (IH (lit ++ [c]) rest) as (l & tl & Htl & -> & Hun & ->);
        [lia|].
      exists (c :: l), tl. split; [done|]. split; [done|].
      split; [|by rewrite <- app_assoc].
      destruct Hun as [Hl Htl']. split; [|done].
      intros [|d pre] suf Hsplit Hsuf.
      * simpl in Hsplit. by rewrite <- Hsplit.
      * injection Hsplit as -> ->. by apply (Hl pre).
Qed.

(** A match of the pattern inside a text followed by nothing or by a
    placeholder is a match in the whole. *)
Lemma unmatched_no_placeholder l tl :
  unmatched l tl → ¬ has_placeholder l.
Proof.
  intros [Hl _] (pre & id & post & Hid & ->).
  specialize (Hl pre (ph id ++ post) eq_refl).
  rewrite <- app_assoc, exec_split_ph in Hl by done.
  assert (ph id ++ post ≠ []) as Hne by done.
  by specialize (Hl Hne).
Qed.

Lemma unmatched_others_no_placeholder tl :
  unmatched_others tl → Forall (λ p, ¬ has_placeholder (snd p)) tl.
Proof.
  induction tl as [|[id l'] tl IH]; intros H; [done|].
  destruct H as [H1 H2].
  constructor; [by apply (unmatched_no_placeholder l' tl)|by apply IH].
Qed.

(** X1.  Every input is cut by [split] into a literal followed by
    placeholders with identifiers, each with the literal after it: an odd
    number of segments that alternate, and that are the input when put
    back together.  No placeholder is left in a literal. *)
Theorem split_parses s :
  ∃ t : template,
    Forall (λ p, identifier (fst p) = true) (others t)
    ∧ render t = s
    ∧ split split_re s
      = first t :: flat_map (λ p, [ph (fst p); snd p]) (others t)
    ∧ ¬ has_placeholder (first t)
    ∧ Forall (λ p, ¬ has_placeholder (snd p)) (others t).
Proof.
  assert (¬ has_placeholder []) as Hnil.
  { intros (pre & id & post & _ & E). by destruct pre. }
  unfold split. destruct s as [|c s].
  - exists (mkTemplate [] []). split; [done|]. split; [done|].
    split; [by vm_compute|]. by split.
  - destruct (split_loop_parse (length (c :: s)) [] (c :: s))
      as (l & tl & Htl & Hs & Hun & Hsplit); [done|].
    exists (mkTemplate l tl). rewrite Hsplit. simpl.
    split; [done|]. split; [done|]. split; [done|].
    split; [by eapply unmatched_no_placeholder|].
    apply unmatched_others_no_placeholder. by destruct Hun.
Qed.

Lemma not_special_neq c :
  not_special c = true → c ≠ dollar ∧ c ≠ lbrace ∧ c ≠ rbrace.
Proof.
  unfold not_special. intros H%negb_true_iff.
  apply orb_false_iff in H as [[H1 H2]%orb_false_iff H3].
  by apply N.eqb_neq in H1, H2, H3.
Qed.

Lemma no_dollar_no_open s : Forall (λ c, c ≠ dollar) s → no_open s = true.
Proof.
  induction 1 as [|c s Hc _ IH]; [done|].
  cbn [no_open]. destruct s as [|d s]; [done|]. rewrite IH.
  apply N.eqb_neq in Hc. by rewrite Hc.
Qed.

Lemma identifier_no_dollar id :
  forallb not_special id = true → Forall (λ c, c ≠ dollar) id.
Proof.
  intros H. apply Forall_forall. intros c Hc.
  rewrite forallb_forall in H. apply list_elem_of_In in Hc.
  by destruct (not_special_neq c (H c Hc)).
Qed.

(** An identifier has no closing brace, so the brace that ends a
    placeholder is the only one in it. *)
Lemma identifier_last_brace id l t :
  forallb not_special id = true → id ++ [rbrace] = l ++ rbrace :: t →
  l = id ∧ t = [].
Proof.
  revert l. induction id as [|c id IH]; intros l Hid E.
  - destruct l as [|d l]; [by injection E as <-|].
    injection E as _ E. by destruct l.
  - cbn [forallb] in Hid. apply andb_true_iff in Hid as [Hc Hid].
    destruct l as [|d l].
    + injection E as -> _. by destruct (not_special_neq _ Hc) as (_ & _ & ?).
    + injection E as <- E. destruct (IH l Hid E) as [-> ->]. done.
Qed.

Lemma search_skip r c s :
  exec r (c :: s) = None → search r (c :: s) = search r s.
Proof. intros H. cbn [search]. by rewrite H. Qed.

(** The pattern of [match] does not match a placeholder whose identifier
    holds a line terminator. *)
Lemma search_key_line_terminator id :
  identifier id = true → forallb dot id = false →
  search key_re (ph id) = None.
Proof.
  unfold identifier. destruct id as [|c id]; [done|]. cbn [forallb].
  intros [_ [Hc Hid]%andb_true_iff]%andb_true_iff Hdot.
  assert (exec key_re (ph (c :: id)) = None) as E.
  { destruct (exec key_re (ph (c :: id))) as [res|] eqn:E; [|done].
    exfalso. revert E. unfold exec, key_re, ph. cbn [app run].
    rewrite !N.eqb_refl. destruct (dot c) eqn:Hdc; [|done].
    intros (l & t & Hs & Hl & Hk)%star_parts.
    destruct t as [|d t]; [done|].
    destruct (N.eqb_spec rbrace d) as [<-|]; [|done].
    apply identifier_last_brace in Hs as [-> _]; [|done].
    simpl in Hdot. by rewrite Hl in Hdot. }
  unfold ph in *. cbn [app] in *. rewrite search_skip by done.
  apply search_key_literal, no_dollar_no_open.
  apply Forall_cons. split; [done|].
  apply Forall_cons. split; [by destruct (not_special_neq _ Hc)|].
  apply Forall_app. split; [by apply identifier_no_dollar|].
  by repeat constructor.
Qed.

Lemma split_ph_alone id :
  identifier id = true → split split_re (ph id) = [[]; ph id; []].
Proof.
  intros Hid. pose proof (split_loop_ph id (length id + 2) [] [] Hid) as H.
  rewrite app_nil_r in H. unfold split.
  assert (length (ph id) = S (length id + 2)) as Hlen
    by (rewrite ph_length; lia).
  destruct (ph id) as [|c s] eqn:E; [done|].
  rewrite Hlen, H. by destruct (length id + 2)%nat.
Qed.

(** X4.  A placeholder whose identifier holds a line terminator is
    copied as it is, whatever the parameters. *)
Theorem replaceParams_line_terminator id ps :
  identifier id = true → forallb dot id = false →
  replaceParams (ph id) ps = ph id.
Proof.
  intros Hid Hdot. unfold replaceParams. rewrite split_ph_alone by done.
  cbn [foldl]. unfold push_segment at 3. cbn [search].
  assert (exec key_re [] = None) as -> by done.
  unfold push_segment at 2. rewrite search_key_line_terminator by done.
  unfold push_segment. cbn [search].
  assert (exec key_re [] = None) as -> by done.
  simpl. by rewrite app_nil_r.
Qed.

Lemma replaceParams_line_terminator_witness :
  replaceParams (ph (js "a" ++ [13] ++ js "b")) {[ js "a" := js "1" ]}
  = ph (js "a" ++ [13] ++ js "b").
Proof. apply replaceParams_line_terminator; reflexivity. Defined.

(** The loop of [split] is done within as many turns as the input has
    code units: a larger bound gives the same segments. *)
Theorem split_enough_turns s fuel :
  (length s ≤ fuel)%nat → split_loop split_re fuel [] s = split split_re s.
Proof.
  intros H. unfold split. destruct s as [|c s].
  - by destruct fuel.
  - by apply (split_loop_fuel (length (c :: s))).
Qed.

Lemma split_enough_turns_witness :
  split_loop split_re 100 [] (js "a${b}c") = split split_re (js "a${b}c").
Proof. apply split_enough_turns. simpl. lia. Defined.



(** X3.  A string in which no [$] is followed by [{] comes back as it is,
    whatever the parameters. *)
Theorem replaceParams_keeps_text s ps :
  no_open s = true → replaceParams s ps = s.
Proof. apply replaceParams_no_open. Qed.

Lemma replaceParams_keeps_text_witness :
  replaceParams (js "cost: 5$ {net}") {[ js "net" := js "1" ]}
  = js "cost: 5$ {net}".
Proof. apply replaceParams_keeps_text. reflexivity. Defined.

End TemplateMore.

(** ** More on the debug / alarm state *)

Section EngineMore.
Import JS Eng.

Lemma run_cons w c cs : run w (c :: cs) = run (fst (step w c)) cs.
Proof. done. Qed.

Lemma run_app w cs1 cs2 : run w (cs1 ++ cs2) = run (run w cs1) cs2.
Proof. unfold run. by rewrite foldl_app. Qed.

Lemma debug_out w now level args :
  debug w now level args = w
  ∨ ∃ l, debug w now level args = output w l.
Proof.
  unfold debug. destruct level; auto. destruct (_ && _); eauto.
Qed.

Lemma alarm_out w now level args :
  alarm w now level args = w
  ∨ ∃ l, alarm w now level args = output w l.
Proof.
  unfold alarm. destruct (alarm_shift level args) as [[] ?]; auto.
  destruct (_ && _); eauto.
Qed.

Lemma step_out w c :
  out (fst (step w c)) = out w
  ∨ ∃ l, out (fst (step w c)) = out w ++ [l].
Proof.
  destruct c; simpl; auto.
  - right. by eexists.
  - destruct (debug_out w now level args) as [->|[l ->]]; [auto|].
    right. by eexists.
  - destruct (alarm_out w now level args) as [->|[l ->]]; [auto|].
    right. by eexists.
Qed.

(** X5.  What has been handed to [output] is never taken back or
    changed: a sequence of calls only appends, and at most one line per
    call. *)
Theorem output_only_grows w cs :
  out w `prefix_of` out (run w cs)
  ∧ (length (out (run w cs)) ≤ length (out w) + length cs)%nat.
Proof.
  revert w. induction cs as [|c cs IH]; intros w.
  - simpl. split; [done|lia].
  - rewrite run_cons. destruct (IH (fst (step w c))) as [Hp Hl].
    destruct (step_out w c) as [E|[l E]]; rewrite E in Hp, Hl.
    + split; [done|]. simpl. lia.
    + split; [by eapply prefix_app_l|].
      rewrite length_app in Hl. simpl in *. lia.
Qed.

Lemma debug_engine w now level args :
  engine (debug w now level args) = engine w.
Proof. by destruct (debug_out w now level args) as [->|[l ->]]. Qed.

Lemma alarm_engine w now level args :
  engine (alarm w now level args) = engine w.
Proof. by destruct (alarm_out w now level args) as [->|[l ->]]. Qed.

Lemma step_name w c :
  sets_name c = false →
  _debugName (engine (fst (step w c))) = _debugName (engine w).
Proof.
  destruct c; simpl; rewrite ?debug_engine, ?alarm_engine; try done.
  - by destruct name.
  - by destruct level.
  - by destruct command.
Qed.

Lemma step_level w c :
  sets_level c = false →
  _debugLevel (engine (fst (step w c))) = _debugLevel (engine w).
Proof.
  destruct c; simpl; rewrite ?debug_engine, ?alarm_engine; try done.
  - by destruct name.
  - by destruct level.
  - by destruct command.
Qed.

Lemma step_flag w c :
  sets_flag c = false →
  _debug (engine (fst (step w c))) = _debug (engine w).
Proof.
  destruct c; simpl; rewrite ?debug_engine, ?alarm_engine; try done.
  - by destruct name.
  - by destruct level.
  - by destruct command.
Qed.

Lemma run_field {A} (f : Engine → A) (keeps : call → bool) w cs :
  (∀ w c, keeps c = true → f (engine (fst (step w c))) = f (engine w)) →
  forallb keeps cs = true →
  f (engine (run w cs)) = f (engine w).
Proof.
  intros Hstep. revert w. induction cs as [|c cs IH]; intros w H; [done|].
  cbn [forallb] in H. apply andb_true_iff in H as [Hc Hcs].
  rewrite run_cons, IH by done. by apply Hstep.
Qed.

(** X6.  A name set with [debugName(name)] is what [debugName()] returns
    after any further calls that are not [debugName] with a string. *)
Theorem debugName_persists w s cs :
  forallb (λ c, negb (sets_name c)) cs = true →
  snd (step (run (fst (step w (DebugName (VStr s)))) cs) (DebugName VUndefined))
  = VStr s.
Proof.
  intros H. simpl. f_equal.
  rewrite (run_field _debugName (λ c, negb (sets_name c))); [done| |done].
  intros w' c Hc. apply step_name. by apply negb_true_iff.
Qed.

Lemma debugName_persists_witness :
  snd (step (run (fst (step (init (js "yate")) (DebugName (VStr (js "ivr")))))
               [DebugLevel (VNum (int 3)); SetDebug (VBool false);
                DebugName VNull; Alarm (js "T") (VNum (int 5)) []])
         (DebugName VUndefined))
  = VStr (js "ivr").
Proof. apply debugName_persists. reflexivity. Defined.

(** X7.  A level set with [debugLevel(level)], whatever number it is, is
    what [debugLevel()] returns after any further calls that are not
    [debugLevel] with a number. *)
Theorem debugLevel_persists w n cs :
  forallb (λ c, negb (sets_level c)) cs = true →
  snd (step (run (fst (step w (DebugLevel (VNum n)))) cs) (DebugLevel VUndefined))
  = VNum n.
Proof.
  intros H. simpl. f_equal.
  rewrite (run_field _debugLevel (λ c, negb (sets_level c))); [done| |done].
  intros w' c Hc. apply step_level. by apply negb_true_iff.
Qed.

Lemma debugLevel_persists_witness :
  snd (step (run (fst (step (init (js "yate")) (DebugLevel (VNum (int 3)))))
               [DebugName (VStr (js "ivr")); DebugLevel (VStr (js "9"));
                Debug (js "T") (VNum (int 2)) []])
         (DebugLevel VUndefined))
  = VNum (int 3).
Proof. apply debugLevel_persists. reflexivity. Defined.

(** X8.  The flag set with [setDebug(true)] or [setDebug(false)] is what
    [debugEnabled] returns, whatever it is given, after any further
    calls that are not [setDebug] with a boolean; calls of
    [debugEnabled] among them make no difference. *)
Theorem setDebug_persists w b cs value :
  forallb (λ c, negb (sets_flag c)) cs = true →
  snd (step (run (fst (step w (SetDebug (VBool b)))) cs) (DebugEnabled value))
  = VBool b.
Proof.
  intros H. simpl.
  rewrite (run_field _debug (λ c, negb (sets_flag c))); [done| |done].
  intros w' c Hc. apply step_flag. by apply negb_true_iff.
Qed.

Lemma setDebug_persists_witness :
  snd (step (run (fst (step (init (js "yate")) (SetDebug (VBool false))))
               [DebugEnabled (VBool true); SetDebug (VStr (js "on"));
                DebugLevel (VNum (int 10))])
         (DebugEnabled (VBool true)))
  = VBool false.
Proof. apply setDebug_persists. reflexivity. Defined.

(** X9.  Calls of [debugEnabled] change neither the state nor the output:
    a sequence of calls ends in the same world without them. *)
Theorem debugEnabled_calls_are_idle w cs :
  run w (List.filter (λ c, negb (is_debugEnabled c)) cs) = run w cs.
Proof.
  revert w. induction cs as [|c cs IH]; intros w; [done|].
  cbn [List.filter]. destruct (is_debugEnabled c) eqn:E; simpl negb; cbn iota.
  - destruct c; try done. rewrite run_cons, IH. by destruct w.
  - by rewrite !run_cons, IH.
Qed.

Lemma le_number_trans a b c : le_number a b → le_number b c → le_number a c.
Proof.
  intros Hab Hbc. destruct Hab as [x y H|b Hb|a Ha].
  - inversion Hbc as [? z H'| |? Hn]; subst.
    + constructor. by eapply Qle_trans.
    + by constructor.
  - inversion Hbc; subst; by constructor.
  - inversion Hbc; subst; try done. by constructor.
Qed.

Lemma lt_le_number_trans a b c : lt_number a b → le_number b c → lt_number a c.
Proof.
  intros Hab Hbc. destruct Hab as [x y H|y| |x].
  - inversion Hbc as [? z H'| |? Hn]; subst; constructor.
    by eapply Qlt_le_trans.
  - inversion Hbc; subst; constructor.
  - inversion Hbc; subst; constructor.
  - inversion Hbc; subst; constructor.
Qed.

Lemma le_lt_number_trans a b c : le_number a b → lt_number b c → lt_number a c.
Proof.
  intros Hab Hbc. destruct Hbc as [x y H|y| |x].
  - inversion Hab as [z ? H'|? Hn|]; subst; constructor.
    by eapply Qle_lt_trans.
  - inversion Hab; subst; constructor.
  - inversion Hab; subst; constructor.
  - inversion Hab as [z ? H'|? Hn|]; subst; constructor.
Qed.

(** When [debug] prints. *)
Lemma debug_prints w now n args :
  debug w now (VNum n) args ≠ w ↔
  lt_number (int (-1)) n ∧ truthy (_debug (engine w)) = true
  ∧ le_number n (_debugLevel (engine w)).
Proof.
  rewrite debug_num, <- num_lt_spec, <- num_le_spec.
  destruct (num_lt _ _), (truthy _), (num_le _ _); simpl;
    split; try done; try (by intros (? & ? & ?));
    intros _; apply output_neq.
Qed.

(** X10.  With the configured level at most 10, as it is initially, every
    line [debug] prints is printed by [alarm] too, called with the same
    arguments: the same line. *)
Theorem debug_line_is_alarm_line w now n args :
  le_number (_debugLevel (engine w)) (int 10) →
  debug w now (VNum n) args ≠ w →
  alarm w now (VNum n) args = debug w now (VNum n) args.
Proof.
  intros Hlvl Hd. pose proof Hd as (H1 & H2 & H3)%debug_prints.
  assert (lt_number n (int 11)) as H4.
  { eapply le_lt_number_trans; [by eapply le_number_trans|].
    apply num_lt_spec. by rewrite num_lt_int. }
  apply num_lt_spec in H1, H4. apply num_le_spec in H3.
  by rewrite alarm_num, debug_num, H1, H2, H3, H4.
Qed.

Lemma debug_line_is_alarm_line_witness :
  alarm (init (js "yate")) (js "T") (VNum (int 8)) [VStr (js "x")]
  = debug (init (js "yate")) (js "T") (VNum (int 8)) [VStr (js "x")].
Proof.
  apply debug_line_is_alarm_line.
  - apply num_le_spec. reflexivity.
  - apply output_neq.
Defined.

(** X11.  The threshold of [debug] is downward closed: if [debug] prints at a
    level, it prints at every lower level above -1. *)
Theorem debug_prints_below w now a b args args' :
  debug w now (VNum a) args ≠ w →
  lt_number (int (-1)) b → le_number b a →
  debug w now (VNum b) args' ≠ w.
Proof.
  intros (H1 & H2 & H3)%debug_prints Hb Hba. apply debug_prints.
  split; [done|]. split; [done|]. by eapply le_number_trans.
Qed.

Lemma debug_prints_below_witness :
  debug (init (js "yate")) (js "T") (VNum (Fin (5 # 2))) []
  ≠ init (js "yate").
Proof.
  apply (debug_prints_below _ _ (int 8) _ [VStr (js "x")]).
  - apply output_neq.
  - apply num_lt_spec. reflexivity.
  - apply num_le_spec. reflexivity.
Defined.

Lemma step_disabled w c :
  enables c = false → truthy (_debug (engine w)) = false →
  truthy (_debug (engine (fst (step w c)))) = false.
Proof.
  destruct c; simpl; rewrite ?debug_engine, ?alarm_engine; try done.
  - by destruct name.
  - by destruct level.
  - by destruct command as [| |[]| | |].
Qed.

Lemma debug_disabled w now level args :
  truthy (_debug (engine w)) = false → debug w now level args = w.
Proof.
  intros H. unfold debug. destruct level; try done.
  by rewrite H, andb_false_r.
Qed.

(** X12.  While the flag is off (after [setDebug(false)]) and until
    [setDebug(true)], [debug] does nothing: the calls of [debug] in a
    sequence can be left out without a change of state or output, and a
    call after the sequence prints nothing. *)
Theorem debug_idle_while_disabled w cs :
  truthy (_debug (engine w)) = false →
  forallb (λ c, negb (enables c)) cs = true →
  run w (List.filter (λ c, negb (is_debug c)) cs) = run w cs
  ∧ ∀ now level args, debug (run w cs) now level args = run w cs.
Proof.
  revert w. induction cs as [|c cs IH]; intros w Hw Hcs.
  - split; [done|]. intros. by apply debug_disabled.
  - cbn [forallb] in Hcs. apply andb_true_iff in Hcs as [Hc Hcs].
    apply negb_true_iff in Hc.
    destruct (IH (fst (step w c))) as [IH1 IH2];
      [by apply step_disabled|done|].
    rewrite run_cons. split; [|done].
    cbn [List.filter]. destruct (is_debug c) eqn:E; simpl negb; cbn iota.
    + destruct c; try done. simpl in *.
      by rewrite debug_disabled in * by done.
    + by rewrite run_cons.
Qed.

Lemma debug_idle_while_disabled_witness :
  let w := fst (step (init (js "yate")) (SetDebug (VBool false))) in
  let cs := [Debug (js "T") (VNum (int 1)) []; DebugEnabled (VBool true);
             Alarm (js "T") (VNum (int 1)) []] in
  run w (List.filter (λ c, negb (is_debug c)) cs) = run w cs
  ∧ ∀ now level args, debug (run w cs) now level args = run w cs.
Proof. apply debug_idle_while_disabled; reflexivity. Defined.

(** X13.  [debug] can print only while the configured level is above -1:
    with a level of -1 or less, or NaN, stored by [debugLevel], it
    prints nothing at any level. *)
Theorem debug_needs_level w now level args :
  num_lt (int (-1)) (_debugLevel (engine w)) = false →
  debug w now level args = w.
Proof.
  intros H. destruct level as [| | |n| |]; try done.
  rewrite debug_num.
  destruct (num_lt (int (-1)) n) eqn:E1; [|done].
  destruct (num_le n (_debugLevel (engine w))) eqn:E2;
    [|by rewrite andb_false_r].
  apply num_lt_spec in E1. apply num_le_spec in E2.
  pose proof (lt_le_number_trans _ _ _ E1 E2) as H'.
  apply num_lt_spec in H'. congruence.
Qed.

Lemma debug_needs_level_witness :
  debug (fst (step (init (js "yate")) (DebugLevel (VNum NaN))))
    (js "T") (VNum (int 0)) [VStr (js "x")]
  = fst (step (init (js "yate")) (DebugLevel (VNum NaN))).
Proof. apply debug_needs_level. reflexivity. Defined.

Lemma js_inj a b : js a = js b → a = b.
Proof.
  revert b. induction a as [|x a IH]; intros [|y b]; try done.
  simpl. intros [= H1 H2]. f_equal; [|by apply IH].
  apply (f_equal ascii_of_N) in H1. by rewrite !ascii_N_embedding in H1.
Qed.

(** X14.  [Engine[level]] is one of the names exactly when [level] is an
    integer from 0 to 10 (only then does a tag carry a name and not
    [undefined]), and different levels have different names, so that
    the tag of a line tells the level. *)
Theorem severity_names :
  (∀ n, is_Some (Engine_at n) ↔
        ∃ q z, n = Fin q ∧ (q == inject_Z z)%Q ∧ (0 ≤ z ≤ 10)%Z)
  ∧ (∀ a b s, severity a = Some s → severity b = Some s → a = b)
  ∧ (∀ e a b, (0 ≤ a ≤ 10)%Z → (0 ≤ b ≤ 10)%Z →
       tag e (int a) = tag e (int b) → a = b).
Proof.
  assert (∀ a b s, severity a = Some s → severity b = Some s → a = b)
    as Hinj.
  { intros a b s Ha Hb.
    assert (is_Some (severity a)) as Ha' by (by eexists).
    assert (is_Some (severity b)) as Hb' by (by eexists).
    apply severity_Some in Ha', Hb'.
    assert (a ∈ [0;1;2;3;4;5;6;7;8;9;10]%Z) as Ia
      by (repeat rewrite elem_of_cons; lia).
    assert (b ∈ [0;1;2;3;4;5;6;7;8;9;10]%Z) as Ib
      by (repeat rewrite elem_of_cons; lia).
    repeat (apply elem_of_cons in Ia as [->|Ia]);
      try (by apply elem_of_nil in Ia);
      repeat (apply elem_of_cons in Ib as [->|Ib]);
      try (by apply elem_of_nil in Ib);
      try done; simpl in Ha, Hb; congruence. }
  split_and!; [|done|].
  - intros n. rewrite <- is_severity_spec. unfold is_severity.
    destruct (Engine_at n) as [s|]; split; intros H; try done;
      try (by eexists); by destruct H.
  - intros e a b Ha Hb.
    apply severity_Some in Ha as [sa Ea]. apply severity_Some in Hb as [sb Eb].
    rewrite (tag_int _ _ _ Ea), (tag_int _ _ _ Eb).
    intros H. apply app_inv_head, app_inv_head, app_inv_head in H.
    apply app_inv_tail, js_inj in H as <-. by apply (Hinj a b sa).
Qed.

End EngineMore.

(** ** More on the Message constructor *)

Section MessageMore.
Import JS Msg.

Lemma fresh_this_grow h f x : fresh_this h f → fresh_this (h ++ [x]) f.
Proof.
  destruct f as [[[|r]|]|]; simpl; try done.
  intros H. by apply lookup_app_l_Some.
Qed.

Lemma closure_ok_grow h o x : closure_ok h o → closure_ok (h ++ [x]) o.
Proof.
  destruct o as [|? ? ? e d]; simpl; [done|].
  intros [? ?]. split; by apply fresh_this_grow.
Qed.

Lemma request_ok_grow h q x : request_ok h q → request_ok (h ++ [x]) q.
Proof.
  destruct q as [[|r]|[|m]]; simpl; try done.
  - intros H. by apply lookup_app_l_Some.
  - destruct (h !! m) eqn:E; [|done].
    intros H. by rewrite (lookup_app_l_Some _ _ _ _ E).
Qed.

Lemma grow_ok h cl o :
  state_ok (mkState h cl) → closure_ok (h ++ [o]) o →
  state_ok (mkState (h ++ [o]) cl).
Proof.
  intros [Hh Hc] Ho. split; simpl in *.
  - apply Forall_app. split.
    + eapply Forall_impl; [done|]. intros. by apply closure_ok_grow.
    + by constructor.
  - eapply Forall_impl; [done|]. intros. by apply request_ok_grow.
Qed.

(** A call of a closure of a message of the heap keeps the state in
    order. *)
Lemma invoke_ok st m f :
  state_ok st → is_message <$> heap st !! m = Some true →
  fresh_this (heap st) (Some f) →
  state_ok (invoke f m st).
Proof.
  intros [Hh Hc] Hm Hf. split; [by destruct f|].
  destruct f as [t|]; simpl; apply Forall_app; (split; [done|]);
    constructor; try done; by destruct t.
Qed.

Lemma act_ok st a : state_ok st → state_ok (act st a).
Proof.
  intros Hst. destruct a as [name b p|name b p|m|m]; simpl.
  - destruct st as [h cl]. unfold new_Message, Message, alloc. simpl.
    apply grow_ok; [by apply grow_ok|].
    simpl. split; [|done].
    rewrite lookup_app_l by (rewrite length_app; simpl; lia).
    apply lookup_snoc.
  - destruct st as [h cl]. unfold call_Message, Message, alloc. simpl.
    by apply grow_ok.
  - unfold enqueue.
    destruct (heap st !! m) as [[|? ? ? [f|] ?]|] eqn:E; try done.
    simpl. apply invoke_ok; [done|by rewrite E|].
    destruct Hst as [Hh _]. rewrite Forall_lookup in Hh.
    by destruct (Hh _ _ E).
  - unfold dispatch.
    destruct (heap st !! m) as [[|? ? ? ? [f|]]|] eqn:E; try done.
    simpl. apply invoke_ok; [done|by rewrite E|].
    destruct Hst as [Hh _]. rewrite Forall_lookup in Hh.
    by destruct (Hh _ _ E).
Qed.

(** X15.  Whatever a script does with [new Message], [Message], [enqueue] and
    [dispatch], the client is never handed a message by [enqueue] (it is
    handed [undefined] or an object without properties), and is always
    handed a message by [dispatch]. *)
Theorem script_requests acts :
  Forall (request_ok (heap (script (mkState [] []) acts)))
    (client (script (mkState [] []) acts)).
Proof.
  assert (∀ st, state_ok st → state_ok (script st acts)) as H.
  { induction acts as [|a acts IH]; intros st Hst; [done|].
    simpl. by apply IH, act_ok. }
  by apply H.
Qed.

End MessageMore.
